(** * healthtech.v1: the text chunker and the Textract job orchestrator

    Embedding of [backend/language_utils.py] ([chunk_text],
    [_split_by_words]) and [backend/file_processor.py]
    ([extract_text_from_s3]), with the properties of the written
    specification stated over these definitions. *)

From Stdlib Require Import List Ascii String ZArith Lia Bool Arith.
Import ListNotations.

Set Implicit Arguments.

(** ** Python values shared by the two modules *)

(** The exceptions the modelled code can raise or receive.  The payload is
    what [str(e)] gives.  [OtherError] stands for every exception class
    that is neither [ClientError] nor one of the others (a botocore
    connection error, for instance). *)
Inductive exn : Type :=
| RuntimeError (msg : string)
| ClientError (msg : string)
| IndexError
| OtherError (msg : string).

(** What a call does: it returns a value or it raises. *)
Inductive result (A : Type) : Type :=
| Returns (a : A)
| Raises (e : exn).

Arguments Returns {A} a.
Arguments Raises {A} e.

(** * The text chunker ([backend/language_utils.py]) *)

Module Chunker.

Open Scope Z_scope.

(** A Python [str], as the list of its characters.  Characters are the code
    points 0..255. *)
Definition str : Type := list ascii.

(** String literals, for the examples. *)
Definition s (lit : string) : str := list_ascii_of_string lit.

Definition len (t : str) : Z := Z.of_nat (List.length t).

(** Truth value of a [str]: non-empty. *)
Definition truthy (t : str) : bool :=
  match t with [] => false | _ :: _ => true end.

(** [str.isspace] on one character; below 256 the whitespace code points are
    9..13, 28..32, 133 and 160.  The regular expression class [\s] is the
    same set. *)
Definition isspace (c : ascii) : bool :=
  let n := nat_of_ascii c in
  (((9 <=? n) && (n <=? 13)) || ((28 <=? n) && (n <=? 32))
   || (n =? 133) || (n =? 160))%nat.

(** The class [[.!?]]. *)
Definition is_terminator (c : ascii) : bool :=
  Ascii.eqb c "." || Ascii.eqb c "!" || Ascii.eqb c "?".

(** The class [[A-Z]]. *)
Definition is_upper (c : ascii) : bool :=
  let n := nat_of_ascii c in ((65 <=? n) && (n <=? 90))%nat.

(** [str.lstrip()], [str.rstrip()], [str.strip()]. *)
Fixpoint lstrip (t : str) : str :=
  match t with
  | [] => []
  | c :: tl => if isspace c then lstrip tl else t
  end.

Definition rstrip (t : str) : str := rev (lstrip (rev t)).

Definition strip (t : str) : str := rstrip (lstrip t).

(** [str.split()] without argument: the maximal runs of non-whitespace
    characters, in order.  [cur] is the run being scanned, reversed. *)
Fixpoint split_from (cur : str) (t : str) : list str :=
  match t with
  | [] => match cur with [] => [] | _ :: _ => [rev cur] end
  | c :: tl =>
      if isspace c then
        match cur with
        | [] => split_from [] tl
        | _ :: _ => rev cur :: split_from [] tl
        end
      else split_from (c :: cur) tl
  end.

Definition split_ws (t : str) : list str := split_from [] t.

(** The lookahead of the sentence pattern after its first whitespace
    character: the rest of the whitespace run, then [[A-Z]].  [\s+] is
    greedy and a shorter run would be followed by whitespace, never by a
    capital, so the pattern matches exactly when the maximal run is followed
    by a capital. *)
Fixpoint ws_then_upper (t : str) : bool :=
  match t with
  | [] => false
  | c :: tl => if isspace c then ws_then_upper tl else is_upper c
  end.

(** [re.split(r'(?<=[.!?])\s+(?=[A-Z])', text)], scanning left to right.
    [prev] tells whether the character before the scan position is in
    [[.!?]] (the lookbehind), [skipping] that the scan is inside a matched
    separator, [cur] is the piece being built, reversed. *)
Fixpoint re_split_from (prev skipping : bool) (cur : str) (t : str)
  : list str :=
  match t with
  | [] => [rev cur]
  | c :: tl =>
      if skipping then
        if isspace c then re_split_from false true [] tl
        else re_split_from (is_terminator c) false [c] tl
      else if prev && isspace c && ws_then_upper tl then
        rev cur :: re_split_from false true [] tl
      else re_split_from (is_terminator c) false (c :: cur) tl
  end.

Definition re_split (t : str) : list str := re_split_from false false [] t.

(** [word_chunks[-1]]: [IndexError] on the empty list. *)
Definition last_item (l : list str) : result str :=
  match l with
  | [] => Raises IndexError
  | _ :: _ => Returns (last l [])
  end.

(** One iteration of the [for word in words] loop of [_split_by_words], on
    the pair ([chunks], [current_chunk]). *)
Definition word_step (max_chars : Z) (st : list str * str) (word : str)
  : list str * str :=
  let (chunks, current_chunk) := st in
  if len current_chunk + len word + 1 >? max_chars then
    if truthy current_chunk then (chunks ++ [strip current_chunk], word)
    else (chunks ++ [word], current_chunk)
  else
    if truthy current_chunk then (chunks, current_chunk ++ " "%char :: word)
    else (chunks, word).

(** The closing [if current_chunk.strip(): chunks.append(...)] of both
    functions. *)
Definition seal (st : list str * str) : list str :=
  let (chunks, current_chunk) := st in
  if truthy (strip current_chunk) then chunks ++ [strip current_chunk]
  else chunks.

Definition _split_by_words (text : str) (max_chars : Z) : list str :=
  let words := split_ws text in
  seal (fold_left (word_step max_chars) words ([], [])).

(** One iteration of the [for sentence in sentences] loop of [chunk_text]. *)
Definition sentence_step (max_chars : Z) (st : list str * str)
  (sentence0 : str) : result (list str * str) :=
  let (chunks, current_chunk) := st in
  let sentence := strip sentence0 in
  if negb (truthy sentence) then Returns st
  else if len current_chunk + len sentence + 1 >? max_chars then
    let chunks :=
      if truthy current_chunk then chunks ++ [strip current_chunk]
      else chunks in
    if len sentence >? max_chars then
      let word_chunks := _split_by_words sentence max_chars in
      let chunks := chunks ++ removelast word_chunks in
      match last_item word_chunks with
      | Returns w => Returns (chunks, w)
      | Raises e => Raises e
      end
    else Returns (chunks, sentence)
  else
    if truthy current_chunk
    then Returns (chunks, current_chunk ++ " "%char :: sentence)
    else Returns (chunks, sentence).

Fixpoint for_sentences (max_chars : Z) (st : list str * str)
  (sentences : list str) : result (list str * str) :=
  match sentences with
  | [] => Returns st
  | sentence :: rest =>
      match sentence_step max_chars st sentence with
      | Returns st' => for_sentences max_chars st' rest
      | Raises e => Raises e
      end
  end.

Definition chunk_text (text : str) (max_chars : Z) : result (list str) :=
  if negb (truthy text) || negb (truthy (strip text)) then Returns []
  else if len text <=? max_chars then Returns [strip text]
  else
    match for_sentences max_chars ([], []) (re_split text) with
    | Returns st => Returns (seal st)
    | Raises e => Raises e
    end.

(** The default of the [max_chars] parameter. *)
Definition default_max_chars : Z := 2000.

(** ** Predicates of the specification *)

(** The first character exists and is not whitespace. *)
Definition hd_nonspace (t : str) : bool :=
  match t with [] => false | c :: _ => negb (isspace c) end.

(** Non-empty, with no whitespace at either end: a trimmed chunk. *)
Definition tidy (t : str) : Prop :=
  hd_nonspace t = true /\ hd_nonspace (rev t) = true.

(** A single whitespace-free word: splitting it gives itself back. *)
Definition single_word (t : str) : Prop := split_ws t = [t].

(** Within the limit, or the one permitted excess: a single word that is
    longer than the limit. *)
Definition fits (max_chars : Z) (t : str) : Prop :=
  len t <= max_chars \/ (max_chars < len t /\ single_word t).

(** What the word scanner emits for the run [cur] when the run ends. *)
Definition flush (cur : str) : list str :=
  match cur with [] => [] | _ :: _ => [rev cur] end.

(** The words of a sequence of chunks, in output order. *)
Definition words_of (chunks : list str) : list str :=
  List.concat (map split_ws chunks).

(** Empty or whitespace-only. *)
Definition blank (t : str) : bool := forallb isspace t.

(** A chunk as both loops hand it over: trimmed, and within the limit
    unless it is a single long word. *)
Definition good (max_chars : Z) (c : str) : Prop := tidy c /\ fits max_chars c.

(** The loop invariant of both loops, after the words [done] went in. *)
Definition packed (max_chars : Z) (st : list str * str) (done : list str)
  : Prop :=
  words_of (fst st) ++ split_ws (snd st) = done
  /\ Forall (good max_chars) (fst st)
  /\ (snd st = [] \/ good max_chars (snd st)).

(** [" ".join(words)]. *)
Fixpoint join_space (words : list str) : str :=
  match words with
  | [] => []
  | [w] => w
  | w :: rest => w ++ " "%char :: join_space rest
  end.

(** A chunk whose whitespace is normalised: its words, single spaces
    between them and nothing else. *)
Definition normalized (c : str) : Prop := c = join_space (split_ws c).

(** The first character is in [[A-Z]]; the last character is in [[.!?]]. *)
Definition starts_upper (t : str) : bool :=
  match t with [] => false | c :: _ => is_upper c end.

Definition ends_terminator (t : str) : bool :=
  match rev t with [] => false | c :: _ => is_terminator c end.

End Chunker.

(** * The Textract job orchestrator ([backend/file_processor.py]) *)

Module Orchestrator.

Open Scope string_scope.

(** One element of ['Blocks'] and one reply of
    [get_document_text_detection].  The optional keys of the reply
    (['Blocks'], ['NextToken'], ['StatusMessage']) are options. *)
Record block : Type := { BlockType : string; Text : string }.

Record detection : Type := {
  JobStatus : string;
  Blocks : option (list block);
  NextToken : option string;
  StatusMessage : option string
}.

(** The module-level state the function reads: whether the [textract]
    client was created, and the [S3_BUCKET] environment variable. *)
Record config : Type := {
  textract_initialized : bool;
  S3_BUCKET : option string
}.

(** The behaviour of the OCR service during one run: what the start call
    does, and what the status queries do, in the order they are issued. *)
Record service : Type := {
  start_reply : result string;
  replies : list (result detection)
}.

(** What a run does, in order.  [Collected] is not a call: it records the
    value of the local [text_lines] after a page of blocks was scanned. *)
Inductive event : Type :=
| StartDetection (bucket key : string)
| GetDetection (job_id : string) (next_token : option string)
| Sleep (seconds : nat)
| Collected (text_lines : list string).

(** The events of a run and how it ended; [None] when the run is still
    waiting for a reply that [replies] does not contain. *)
Definition run : Type := (list event * option (result string))%type.

Definition emit (ev : event) (r : run) : run := (ev :: fst r, snd r).

Definition raise (e : exn) : run := ([], Some (Raises e)).

Definition max_attempts : nat := 60.

Definition newline : string := String (ascii_of_nat 10) EmptyString.

(** The texts the [for block in result.get('Blocks', [])] loop appends. *)
Definition line_texts (d : detection) : list string :=
  map Text
    (filter (fun b => BlockType b =? "LINE")
       (match Blocks d with Some bs => bs | None => [] end)).

(** The [except ClientError] clause of the polling loop; [retry] is the
    rest of the run after [continue]. *)
Definition on_client_error (attempt : nat) (e : string) (retry : run) : run :=
  if (attempt <? max_attempts - 1)%nat then emit (Sleep 5) retry
  else raise (RuntimeError ("Failed to get Textract job status: " ++ e)).

(** The two loops: [while attempt < max_attempts] and
    [while 'NextToken' in result].  Each iteration consumes one reply. *)
Fixpoint poll_loop (rs : list (result detection)) (job_id : string)
  (attempt : nat) {struct rs} : run :=
  if (max_attempts <=? attempt)%nat then
    raise (RuntimeError
             "Textract job timed out - took longer than expected to complete")
  else
    match rs with
    | [] => ([], None)
    | reply :: rest =>
        emit (GetDetection job_id None)
          match reply with
          | Returns result =>
              if JobStatus result =? "SUCCEEDED" then
                let text_lines := ([] ++ line_texts result)%list in
                emit (Collected text_lines)
                  (pagination_loop rest job_id attempt result text_lines)
              else if JobStatus result =? "FAILED" then
                let error_msg :=
                  match StatusMessage result with
                  | Some m => m
                  | None => "Unknown error"
                  end in
                raise (RuntimeError ("Textract job failed: " ++ error_msg))
              else if JobStatus result =? "IN_PROGRESS" then
                emit (Sleep 5) (poll_loop rest job_id (S attempt))
              else poll_loop rest job_id attempt
          | Raises (ClientError e) =>
              on_client_error attempt e (poll_loop rest job_id (S attempt))
          | Raises e => raise e
          end
    end
with pagination_loop (rs : list (result detection)) (job_id : string)
  (attempt : nat) (result : detection) (text_lines : list string)
  {struct rs} : run :=
  match NextToken result with
  | None => ([], Some (Returns (String.concat newline text_lines)))
  | Some token =>
      match rs with
      | [] => ([], None)
      | reply :: rest =>
          emit (GetDetection job_id (Some token))
            match reply with
            | Returns result' =>
                let text_lines' := (text_lines ++ line_texts result')%list in
                emit (Collected text_lines')
                  (pagination_loop rest job_id attempt result' text_lines')
            | Raises (ClientError e) =>
                on_client_error attempt e (poll_loop rest job_id (S attempt))
            | Raises e => raise e
            end
      end
  end.

(** [str(e)]. *)
Definition str_of_exn (e : exn) : string :=
  match e with
  | RuntimeError m | ClientError m | OtherError m => m
  | IndexError => "list index out of range"
  end.

(** The two handlers of the outer [try]. *)
Definition outer_handler (e : exn) : exn :=
  match e with
  | ClientError m => RuntimeError ("Failed to start Textract job: " ++ m)
  | _ =>
      RuntimeError
        ("Unexpected error during text extraction: " ++ str_of_exn e)
  end.

Definition handled (r : run) : run :=
  (fst r,
   match snd r with
   | Some (Raises e) => Some (Raises (outer_handler e))
   | o => o
   end).

Definition extract_text_from_s3 (cfg : config) (svc : service)
  (key : string) : run :=
  if negb (textract_initialized cfg) then
    raise (RuntimeError
      "Textract client not initialized. This code must run in the AWS sandbox with proper credentials.")
  else
    match S3_BUCKET cfg with
    | None | Some EmptyString =>
        raise (RuntimeError
          "S3_BUCKET environment variable not set. This code must run in the AWS sandbox.")
    | Some bucket =>
        emit (StartDetection bucket key)
          (handled
             match start_reply svc with
             | Returns job_id => poll_loop (replies svc) job_id 0
             | Raises e => raise e
             end)
    end.

(** The queries of a run, by the continuation token they carry, and the
    successive values of [text_lines]. *)
Fixpoint queries (tr : list event) : list (option string) :=
  match tr with
  | [] => []
  | GetDetection _ tok :: tl => tok :: queries tl
  | _ :: tl => queries tl
  end.

Fixpoint snapshots (tr : list event) : list (list string) :=
  match tr with
  | [] => []
  | Collected l :: tl => l :: snapshots tl
  | _ :: tl => snapshots tl
  end.

Fixpoint sleeps (tr : list event) : nat :=
  match tr with
  | [] => 0
  | Sleep _ :: tl => S (sleeps tl)
  | _ :: tl => sleeps tl
  end.

(** The class of an exception, which is what an [except] clause matches. *)
Inductive exn_class : Type :=
  RuntimeError_class | ClientError_class | IndexError_class | Other_class.

Definition class_of (e : exn) : exn_class :=
  match e with
  | RuntimeError _ => RuntimeError_class
  | ClientError _ => ClientError_class
  | IndexError => IndexError_class
  | OtherError _ => Other_class
  end.

(** ** Predicates of the specification *)

(** A reply after which the polling loop polls again: a status other than
    [SUCCEEDED] and [FAILED], or a [ClientError]. *)
Definition pending_reply (r : result detection) : bool :=
  match r with
  | Returns d =>
      negb (JobStatus d =? "SUCCEEDED") && negb (JobStatus d =? "FAILED")
  | Raises (ClientError _) => true
  | Raises _ => false
  end.

(** Among the pending replies, those that consume an attempt. *)
Definition uses_attempt (r : result detection) : bool :=
  match r with
  | Returns d => JobStatus d =? "IN_PROGRESS"
  | Raises (ClientError _) => true
  | Raises _ => false
  end.

Fixpoint attempts_used (rs : list (result detection)) : nat :=
  match rs with
  | [] => 0
  | r :: tl => ((if uses_attempt r then 1 else 0) + attempts_used tl)%nat
  end.

(** What the polling loop does on a sequence of pending replies. *)
Fixpoint pending_events (job_id : string) (rs : list (result detection))
  : list event :=
  match rs with
  | [] => []
  | r :: tl =>
      (GetDetection job_id None
         :: (if uses_attempt r then [Sleep 5] else [])
         ++ pending_events job_id tl)%list
  end.

(** A run preceded by the events [tr]. *)
Definition after (tr : list event) (r : run) : run :=
  ((tr ++ fst r)%list, snd r).


(** Each value of [text_lines] extends the one before. *)
Fixpoint grows (l : list (list string)) : Prop :=
  match l with
  | a :: (b :: _) as tl => (exists ext, b = (a ++ ext)%list) /\ grows tl
  | _ => True
  end.

Definition no_client_error (rs : list (result detection)) : bool :=
  forallb (fun r => match r with Raises (ClientError _) => false | _ => true end)
    rs.

(** The messages of the four failure modes, as the caller receives them. *)
Definition unexpected : string := "Unexpected error during text extraction: ".

Definition submission_message (e : string) : string :=
  "Failed to start Textract job: " ++ e.

Definition job_failed_message (reason : string) : string :=
  unexpected ++ "Textract job failed: " ++ reason.

Definition timeout_message : string :=
  unexpected
    ++ "Textract job timed out - took longer than expected to complete".

Definition polling_message (e : string) : string :=
  unexpected ++ "Failed to get Textract job status: " ++ e.

(** The reason a [FAILED] reply carries. *)
Definition failure_reason (d : detection) : string :=
  match StatusMessage d with Some m => m | None => "Unknown error" end.

(** The polls of a run: the status queries of the outer loop, which carry
    no token. *)
Fixpoint polls (tr : list event) : nat :=
  match tr with
  | [] => 0
  | GetDetection _ None :: tl => S (polls tl)
  | _ :: tl => polls tl
  end.

(** The replies whose status, if any, is one of the three the loop tests. *)
Definition tested_status (r : result detection) : bool :=
  match r with
  | Returns d =>
      (JobStatus d =? "SUCCEEDED") || (JobStatus d =? "FAILED")
      || (JobStatus d =? "IN_PROGRESS")
  | Raises _ => true
  end.

(** ** Sample data for the examples *)

Definition sample_config : config :=
  {| textract_initialized := true; S3_BUCKET := Some "reports-bucket" |}.

Definition line (t : string) : block := {| BlockType := "LINE"; Text := t |}.

Definition word (t : string) : block := {| BlockType := "WORD"; Text := t |}.

(** A reply that carries a status and nothing else. *)
Definition status_only (st : string) : detection :=
  {| JobStatus := st; Blocks := None; NextToken := None;
     StatusMessage := None |}.

(** A page of a finished job. *)
Definition page (bs : list block) (tok : option string) : detection :=
  {| JobStatus := "SUCCEEDED"; Blocks := Some bs; NextToken := tok;
     StatusMessage := None |}.

Definition failed_with (reason : string) : detection :=
  {| JobStatus := "FAILED"; Blocks := None; NextToken := None;
     StatusMessage := Some reason |}.

(** A service that accepted the job ["job-1"] and then answers [rs]. *)
Definition answering (rs : list (result detection)) : service :=
  {| start_reply := Returns "job-1"; replies := rs |}.

(** Two pages are fetched, the query for the third fails once, and the
    service then serves the three pages. *)
Definition interrupted_pagination : service :=
  answering
    [ Returns (page [line "A"] (Some "t1"));
      Returns (page [line "B"] (Some "t2"));
      Raises (ClientError "throttled");
      Returns (page [line "A"] (Some "t1"));
      Returns (page [line "B"] (Some "t2"));
      Returns (page [line "C"] None) ].

(** The seconds a run spends in [time.sleep]. *)
Fixpoint sleep_seconds (tr : list event) : nat :=
  match tr with
  | [] => 0
  | Sleep n :: tl => (n + sleep_seconds tl)%nat
  | _ :: tl => sleep_seconds tl
  end.

(** What the two loops may do for the job [job_id]: query that job, sleep
    five seconds, collect lines. *)
Definition loop_event (job_id : string) (ev : event) : Prop :=
  match ev with
  | StartDetection _ _ => False
  | GetDetection j _ => j = job_id
  | Sleep n => n = 5%nat
  | Collected _ => True
  end.

(** ** A page in the words of the specification *)

(** The blocks a page delivers; none when the reply has no ['Blocks']. *)
Definition page_blocks (d : detection) : list block :=
  match Blocks d with Some bs => bs | None => [] end.

(** The texts of the LINE-classified blocks, in the order of the blocks; a
    block of any other type contributes nothing. *)
Fixpoint texts_of_line_blocks (bs : list block) : list string :=
  match bs with
  | [] => []
  | b :: tl =>
      if BlockType b =? "LINE" then Text b :: texts_of_line_blocks tl
      else texts_of_line_blocks tl
  end.

(** What the accumulated lines are after each of the pages [pages], when
    they were [acc] before: every page appends its LINE texts. *)
Fixpoint accumulations (acc : list string) (pages : list detection)
  : list (list string) :=
  match pages with
  | [] => []
  | p :: ps =>
      let acc' := (acc ++ texts_of_line_blocks (page_blocks p))%list in
      acc' :: accumulations acc' ps
  end.

(** Each page before the last one of [d :: more] carries a continuation
    token, so that the page after it is asked for. *)
Fixpoint chained (d : detection) (more : list detection) : Prop :=
  match more with
  | [] => True
  | p :: ps => NextToken d <> None /\ chained p ps
  end.

(** After the page [d], the pagination is over or not yet continued, and
    no [ClientError] interrupts it: [d] carries no token, or the service
    has not answered the next query, or that query raises something that
    is not a [ClientError]. *)
Definition pagination_ends (d : detection) (rest : list (result detection))
  : Prop :=
  NextToken d = None
  \/ rest = []
  \/ exists e tl, rest = Raises e :: tl /\ class_of e <> ClientError_class.

End Orchestrator.

(** * The uploader ([backend/file_processor.py]) *)

Module Uploader.

Open Scope string_scope.

(** [str.lower()] on one character: below 256 the cased capitals are
    [A]..[Z] and the code points 192..222 other than 215, and the small
    letter is 32 further. *)
Definition lower_char (c : ascii) : ascii :=
  let n := nat_of_ascii c in
  if (((65 <=? n) && (n <=? 90))
      || ((192 <=? n) && (n <=? 222) && negb (n =? 215)))%nat
  then ascii_of_nat (n + 32)
  else c.

Fixpoint lower (t : string) : string :=
  match t with
  | EmptyString => EmptyString
  | String c tl => String (lower_char c) (lower tl)
  end.

(** [dict.get(key, default)] on a dict written as the list of its items. *)
Fixpoint dict_get (d : list (string * string)) (key default : string)
  : string :=
  match d with
  | [] => default
  | (k, v) :: tl => if k =? key then v else dict_get tl key default
  end.

Definition content_types : list (string * string) :=
  [ ("pdf", "application/pdf");
    ("png", "image/png");
    ("jpg", "image/jpeg");
    ("jpeg", "image/jpeg");
    ("tiff", "image/tiff");
    ("tif", "image/tiff") ].

Definition _get_content_type (file_extension : string) : string :=
  dict_get content_types (lower file_extension) "application/octet-stream".

(** [c in t] for one character. *)
Fixpoint contains (c : ascii) (t : string) : bool :=
  match t with
  | EmptyString => false
  | String x tl => Ascii.eqb x c || contains c tl
  end.

(** [t.split(sep)] for a separator of one character: the pieces between
    the separators, empty pieces included; never the empty list. *)
Fixpoint split_on (sep : ascii) (t : string) : list string :=
  match t with
  | EmptyString => [EmptyString]
  | String c tl =>
      if Ascii.eqb c sep then EmptyString :: split_on sep tl
      else
        match split_on sep tl with
        | p :: ps => String c p :: ps
        | [] => [String c EmptyString]
        end
  end.

(** [l[-1]]: [IndexError] on the empty list. *)
Definition last_of (l : list string) : result string :=
  match l with
  | [] => Raises IndexError
  | _ :: _ => Returns (last l EmptyString)
  end.

(** [filename.split('.')[-1] if '.' in filename else 'bin']. *)
Definition file_extension_of (filename : string) : result string :=
  if contains "." filename then last_of (split_on "." filename)
  else Returns "bin".

(** The module-level state the function reads. *)
Record config : Type := {
  s3_initialized : bool;
  S3_BUCKET : option string
}.

(** The keyword arguments of [s3.put_object]. *)
Record put_request : Type := {
  Bucket : string;
  Key : string;
  Body : string;
  ContentType : string
}.

(** What [s3.put_object] does: it stores the object, raises
    [NoCredentialsError], or raises something else. *)
Inductive put_reply : Type :=
| Stored
| NoCredentials
| Failed (e : exn).

(** [f"reports/{unique_id}_{filename}"]. *)
Definition object_key (unique_id filename : string) : string :=
  "reports/" ++ unique_id ++ "_" ++ filename.

(** The [except ClientError] and [except Exception] clauses. *)
Definition upload_handler (e : exn) : exn :=
  match e with
  | ClientError m => RuntimeError ("Failed to upload file to S3: " ++ m)
  | _ =>
      RuntimeError
        ("Unexpected error during S3 upload: " ++ Orchestrator.str_of_exn e)
  end.

(** [upload_to_s3]; [unique_id] is what [str(uuid.uuid4())] gave and
    [reply] what [put_object] does.  The result comes with the requests
    that were sent. *)
Definition upload_to_s3 (cfg : config) (unique_id : string)
  (reply : put_reply) (file_bytes filename : string)
  : list put_request * result string :=
  if negb (s3_initialized cfg) then
    ([], Raises (RuntimeError
      "S3 client not initialized. This code must run in the AWS sandbox with proper credentials."))
  else
    match S3_BUCKET cfg with
    | None | Some EmptyString =>
        ([], Raises (RuntimeError
          "S3_BUCKET environment variable not set. This code must run in the AWS sandbox."))
    | Some bucket =>
        match file_extension_of filename with
        | Raises e => ([], Raises (upload_handler e))
        | Returns file_extension =>
            let key := object_key unique_id filename in
            ([ {| Bucket := bucket; Key := key; Body := file_bytes;
                  ContentType := _get_content_type file_extension |} ],
             match reply with
             | Stored => Returns key
             | NoCredentials =>
                 Raises (RuntimeError
                   "AWS credentials not found. This code must run in the AWS sandbox.")
             | Failed e => Raises (upload_handler e)
             end)
        end
    end.

End Uploader.

(** * The request handler ([backend/main.py]) *)

Module Endpoint.

Open Scope string_scope.

(** How a request ends: the handler returns the dict with the two texts,
    returns a [JSONResponse] with an error, or raises [HTTPException]. *)
Inductive response : Type :=
| Success (raw_text summary : string)
| JSONResponse (status_code : nat) (error : string)
| HTTPException (status_code : nat) (detail : string).

(** What a request did: the objects it sent to S3, the events of the
    Textract run, and the texts it asked a summary for. *)
Record effects : Type := {
  puts : list Uploader.put_request;
  ocr : list Orchestrator.event;
  summarized : list string
}.

Definition nothing : effects :=
  {| puts := []; ocr := []; summarized := [] |}.

(** The last clause of the outer [try]: [except Exception]. *)
Definition unexpected_error (e : exn) : response :=
  JSONResponse 500 ("Unexpected error: " ++ Orchestrator.str_of_exn e).

(** [process_file].  [filename] is [file.filename] and [read] what
    [await file.read()] does; [summarize_text] is the summarizer of
    [backend/model_config.py]; the other parameters are those of
    [upload_to_s3] and [extract_text_from_s3].  The response is [None] when
    the Textract run is still waiting for a reply. *)
Definition process_file (ucfg : Uploader.config) (ocfg : Orchestrator.config)
  (unique_id : string) (put : Uploader.put_reply)
  (svc : Orchestrator.service) (summarize_text : string -> result string)
  (filename : option string) (read : result string)
  : effects * option response :=
  match filename with
  | None | Some EmptyString =>
      (nothing, Some (HTTPException 400 "No file provided"))
  | Some name =>
      match read with
      | Raises e => (nothing, Some (unexpected_error e))
      | Returns EmptyString =>
          (nothing, Some (HTTPException 400 "Empty file provided"))
      | Returns file_bytes =>
          let up := Uploader.upload_to_s3 ucfg unique_id put file_bytes name in
          match snd up with
          | Raises (RuntimeError m) =>
              ({| puts := fst up; ocr := []; summarized := [] |},
               Some (JSONResponse 500 ("Failed to upload file: " ++ m)))
          | Raises e =>
              ({| puts := fst up; ocr := []; summarized := [] |},
               Some (unexpected_error e))
          | Returns s3_key =>
              let ex := Orchestrator.extract_text_from_s3 ocfg svc s3_key in
              match snd ex with
              | None =>
                  ({| puts := fst up; ocr := fst ex; summarized := [] |}, None)
              | Some (Raises (RuntimeError m)) =>
                  ({| puts := fst up; ocr := fst ex; summarized := [] |},
                   Some (JSONResponse 500 ("Failed to extract text: " ++ m)))
              | Some (Raises e) =>
                  ({| puts := fst up; ocr := fst ex; summarized := [] |},
                   Some (unexpected_error e))
              | Some (Returns raw_text) =>
                  ({| puts := fst up; ocr := fst ex;
                      summarized := [raw_text] |},
                   Some
                     match summarize_text raw_text with
                     | Returns summary => Success raw_text summary
                     | Raises e =>
                         JSONResponse 500
                           ("Failed to generate summary: "
                              ++ Orchestrator.str_of_exn e)
                     end)
              end
          end
      end
  end.

End Endpoint.

(** * The summarizer ([backend/model_config.py]) *)

Module Summarizer.

Open Scope string_scope.

(** The module-level configuration the functions read. *)
Record config : Type := {
  USE_SARVAM : bool;
  SARVAM_API_KEY : option string;
  OPENAI_API_KEY : option string
}.

(** The document [response.json()] gives: the optional key ["choices"], a
    list of dicts each with an optional key ["text"], and the optional key
    ["text"]. *)
Record sarvam_json : Type := {
  choices : option (list (option Chunker.str));
  text : option Chunker.str
}.

(** What the exchange with the Sarvam API does: [post], [raise_for_status]
    or [json] raises a [RequestException], or the document is read, or
    reading it raises something else. *)
Inductive sarvam_reply : Type :=
| RequestFailed (msg : string)
| Answered (doc : result sarvam_json).

(** The last clause of [_summarize_with_sarvam]: [except Exception]. *)
Definition sarvam_handler (e : exn) : exn :=
  RuntimeError
    ("Sarvam summarization failed: " ++ Orchestrator.str_of_exn e).

(** Each function returns the texts it sent to its API together with its
    result. *)
Definition _summarize_with_sarvam (cfg : config) (reply : sarvam_reply)
  (t : Chunker.str) : list Chunker.str * result Chunker.str :=
  match SARVAM_API_KEY cfg with
  | None | Some EmptyString =>
      ([], Raises (RuntimeError
                     "SARVAM_API_KEY not found in environment variables"))
  | Some _ =>
      ([t],
       match reply with
       | RequestFailed m =>
           Raises (RuntimeError ("Sarvam API request failed: " ++ m))
       | Answered (Raises e) => Raises (sarvam_handler e)
       | Answered (Returns doc) =>
           match choices doc with
           | Some (first :: _) =>
               Returns
                 (Chunker.strip
                    match first with Some generated => generated | None => [] end)
           | _ =>
               match text doc with
               | Some generated => Returns (Chunker.strip generated)
               | None =>
                   Raises
                     (sarvam_handler
                        (RuntimeError
                           "Unexpected response format from Sarvam API"))
               end
           end
       end)
  end.

(** [reply] is what [openai.ChatCompletion.create] followed by
    [response.choices[0].message.content] gives. *)
Definition _summarize_with_openai (cfg : config)
  (reply : result Chunker.str) (t : Chunker.str)
  : list Chunker.str * result Chunker.str :=
  match OPENAI_API_KEY cfg with
  | None | Some EmptyString =>
      ([], Raises (RuntimeError
                     "OPENAI_API_KEY not found in environment variables"))
  | Some _ =>
      ([t],
       match reply with
       | Returns content => Returns (Chunker.strip content)
       | Raises e =>
           Raises
             (RuntimeError
                ("OpenAI summarization failed: "
                   ++ Orchestrator.str_of_exn e))
       end)
  end.

Definition summarize_text (cfg : config) (sarvam : sarvam_reply)
  (openai : result Chunker.str) (t : Chunker.str)
  : list Chunker.str * result Chunker.str :=
  if USE_SARVAM cfg then _summarize_with_sarvam cfg sarvam t
  else _summarize_with_openai cfg openai t.

End Summarizer.

(** * Properties of the text chunker *)

Module ChunkerFacts.

Import Chunker.
Open Scope Z_scope.

(** ** Trimming *)

Lemma lstrip_decompose (t : str) :
  exists ws, t = ws ++ lstrip t /\ forallb isspace ws = true.
Proof.
  induction t as [|c tl [ws [E W]]]; simpl.
  - exists []; auto.
  - destruct (isspace c) eqn:Hc.
    + exists (c :: ws); simpl; rewrite Hc, W, <- E; auto.
    + exists []; auto.
Qed.

Lemma lstrip_head (t : str) : lstrip t = [] \/ hd_nonspace (lstrip t) = true.
Proof.
  induction t as [|c tl IH]; simpl; auto.
  destruct (isspace c) eqn:Hc; auto.
  right; simpl; rewrite Hc; reflexivity.
Qed.

Lemma lstrip_fixed (t : str) : hd_nonspace t = true -> lstrip t = t.
Proof.
  destruct t as [|c tl]; simpl; auto.
  destruct (isspace c); simpl; auto; discriminate.
Qed.

Lemma lstrip_length (t : str) : (List.length (lstrip t) <= List.length t)%nat.
Proof.
  induction t as [|c tl IH]; simpl; auto.
  destruct (isspace c); simpl; lia.
Qed.

Lemma strip_length (t : str) : len (strip t) <= len t.
Proof.
  unfold len, strip, rstrip. rewrite length_rev.
  pose proof (lstrip_length (rev (lstrip t))) as H1.
  rewrite length_rev in H1.
  pose proof (lstrip_length t). lia.
Qed.

Lemma hd_nonspace_app (a b : str) :
  a <> [] -> hd_nonspace (a ++ b) = hd_nonspace a.
Proof. destruct a; simpl; congruence. Qed.

Lemma hd_nonspace_nonempty (t : str) : hd_nonspace t = true -> t <> [].
Proof. destruct t; simpl; congruence. Qed.

Lemma tidy_nonempty (t : str) : tidy t -> t <> [].
Proof. intros [H _]; now apply hd_nonspace_nonempty. Qed.

Lemma tidy_truthy (t : str) : tidy t -> truthy t = true.
Proof. intros H; apply tidy_nonempty in H; destruct t; simpl; congruence. Qed.

Lemma strip_tidy (t : str) : tidy t -> strip t = t.
Proof.
  intros [H1 H2]. unfold strip, rstrip.
  rewrite (lstrip_fixed _ H1), (lstrip_fixed _ H2). apply rev_involutive.
Qed.

Lemma strip_is_tidy (t : str) : strip t <> [] -> tidy (strip t).
Proof.
  unfold strip, rstrip. intros Hne.
  set (u := lstrip t) in *. set (v := lstrip (rev u)) in *.
  assert (Hv : v <> []) by (intros E; apply Hne; rewrite E; reflexivity).
  split.
  - destruct (lstrip_decompose (rev u)) as [ws [E _]]. fold v in E.
    assert (Eu : u = rev v ++ rev ws).
    { rewrite <- rev_app_distr, <- E. symmetry; apply rev_involutive. }
    destruct (lstrip_head t) as [E0 | H0]; fold u in E0 || fold u in H0.
    + rewrite E0 in Eu. symmetry in Eu. apply app_eq_nil in Eu.
      destruct Eu as [Eu _]. contradiction.
    + rewrite Eu in H0. rewrite hd_nonspace_app in H0; auto.
  - rewrite rev_involutive.
    destruct (lstrip_head (rev u)) as [E0 | H0]; fold v in E0 || fold v in H0;
      [contradiction | assumption].
Qed.

Lemma strip_nil : strip [] = [].
Proof. reflexivity. Qed.

Lemma truthy_false (t : str) : truthy t = false -> t = [].
Proof. destruct t; simpl; congruence. Qed.

Lemma truthy_true (t : str) : truthy t = true -> t <> [].
Proof. destruct t; simpl; congruence. Qed.

Lemma tidy_join (a b : str) (c : ascii) :
  tidy a -> tidy b -> tidy (a ++ c :: b).
Proof.
  intros [A1 A2] [B1 B2]. split.
  - rewrite hd_nonspace_app; auto using hd_nonspace_nonempty.
  - rewrite rev_app_distr. simpl. rewrite <- app_assoc.
    rewrite hd_nonspace_app; auto using hd_nonspace_nonempty.
Qed.

(** ** Splitting into words *)

Lemma split_from_space (cur : str) (c : ascii) (t : str) :
  isspace c = true -> split_from cur (c :: t) = flush cur ++ split_ws t.
Proof. intros Hc; simpl; rewrite Hc; destruct cur; reflexivity. Qed.

Lemma split_from_app (cur a : str) (c : ascii) (b : str) :
  isspace c = true ->
  split_from cur (a ++ c :: b) = split_from cur a ++ split_ws b.
Proof.
  intros Hc. revert cur.
  induction a as [|x a IH]; intros cur.
  - simpl app. rewrite split_from_space by assumption. destruct cur; reflexivity.
  - simpl. destruct (isspace x).
    + destruct cur; simpl; rewrite IH; reflexivity.
    + apply IH.
Qed.

(** Whitespace between two pieces separates their words. *)
Lemma split_ws_app (a : str) (c : ascii) (b : str) :
  isspace c = true -> split_ws (a ++ c :: b) = split_ws a ++ split_ws b.
Proof. apply split_from_app. Qed.

Lemma split_ws_lstrip (t : str) : split_ws (lstrip t) = split_ws t.
Proof.
  induction t as [|c tl IH]; simpl; auto.
  destruct (isspace c) eqn:Hc; auto.
  unfold split_ws at 2; simpl; rewrite Hc; exact IH.
Qed.

Lemma split_from_blank (cur ws : str) :
  forallb isspace ws = true -> split_from cur ws = flush cur.
Proof.
  revert cur; induction ws as [|c ws IH]; intros cur H; simpl in *.
  - reflexivity.
  - apply andb_true_iff in H; destruct H as [Hc H]. rewrite Hc.
    destruct cur; rewrite IH by assumption; reflexivity.
Qed.

Lemma split_from_trailing (cur a ws : str) :
  forallb isspace ws = true -> split_from cur (a ++ ws) = split_from cur a.
Proof.
  intros H; revert cur; induction a as [|x a IH]; intros cur; simpl.
  - rewrite split_from_blank by assumption. destruct cur; reflexivity.
  - destruct (isspace x); [destruct cur|]; rewrite IH; reflexivity.
Qed.

Lemma forallb_rev (f : ascii -> bool) (l : str) :
  forallb f (rev l) = forallb f l.
Proof.
  induction l as [|x l IH]; simpl; auto.
  rewrite forallb_app, IH; simpl. rewrite andb_true_r. apply andb_comm.
Qed.

Lemma split_ws_rstrip (t : str) : split_ws (rstrip t) = split_ws t.
Proof.
  unfold rstrip.
  destruct (lstrip_decompose (rev t)) as [ws [E W]].
  assert (Et : t = rev (lstrip (rev t)) ++ rev ws).
  { rewrite <- rev_app_distr, <- E. symmetry; apply rev_involutive. }
  rewrite Et at 2. unfold split_ws.
  rewrite split_from_trailing; auto. now rewrite forallb_rev.
Qed.

(** Trimming does not change the words. *)
Lemma split_ws_strip (t : str) : split_ws (strip t) = split_ws t.
Proof. unfold strip. now rewrite split_ws_rstrip, split_ws_lstrip. Qed.

Lemma split_from_nonempty (cur t : str) : cur <> [] -> split_from cur t <> [].
Proof.
  revert cur; induction t as [|c t IH]; intros cur H; simpl.
  - destruct cur; congruence.
  - destruct (isspace c).
    + destruct cur; congruence.
    + apply IH; congruence.
Qed.

Lemma tidy_has_words (t : str) : tidy t -> split_ws t <> [].
Proof.
  intros [H _]. destruct t as [|c t]; simpl in H; [discriminate|].
  unfold split_ws; simpl. apply negb_true_iff in H; rewrite H.
  apply split_from_nonempty; congruence.
Qed.

Lemma split_from_word (cur w : str) :
  forallb (fun c => negb (isspace c)) w = true ->
  split_from cur w = flush (rev w ++ cur).
Proof.
  revert cur; induction w as [|c w IH]; intros cur H; simpl in *.
  - reflexivity.
  - apply andb_true_iff in H; destruct H as [Hc H].
    apply negb_true_iff in Hc; rewrite Hc, IH by assumption.
    now rewrite <- app_assoc.
Qed.

(** A non-empty string without whitespace is one word. *)
Lemma single_word_intro (w : str) :
  w <> [] -> forallb (fun c => negb (isspace c)) w = true -> single_word w.
Proof.
  intros Hne H. unfold single_word, split_ws.
  rewrite split_from_word by assumption. rewrite app_nil_r.
  unfold flush. destruct (rev w) eqn:E.
  - apply (f_equal (@rev ascii)) in E. rewrite rev_involutive in E.
    simpl in E; contradiction.
  - rewrite <- E, rev_involutive; reflexivity.
Qed.

(** Every word [str.split()] produces is non-empty and free of whitespace. *)
Lemma split_from_words (cur t : str) :
  forallb (fun c => negb (isspace c)) cur = true ->
  Forall (fun w => w <> [] /\ forallb (fun c => negb (isspace c)) w = true)
    (split_from cur t).
Proof.
  revert cur; induction t as [|c t IH]; intros cur H; simpl.
  - destruct cur as [|x cur]; constructor; auto.
    split.
    + intros E. apply (f_equal (@List.length ascii)) in E.
      rewrite length_rev in E; discriminate.
    + now rewrite forallb_rev.
  - destruct (isspace c) eqn:Hc.
    + destruct cur as [|x cur]; [apply IH; reflexivity|].
      constructor; [|apply IH; reflexivity].
      split.
      * intros E. apply (f_equal (@List.length ascii)) in E.
        rewrite length_rev in E; discriminate.
      * now rewrite forallb_rev.
    + apply IH. simpl. now rewrite Hc, H.
Qed.

Lemma nonspace_tidy (w : str) :
  w <> [] -> forallb (fun c => negb (isspace c)) w = true -> tidy w.
Proof.
  intros Hne H. split.
  - destruct w; [contradiction|]. simpl in *.
    now apply andb_true_iff in H.
  - rewrite <- forallb_rev in H. destruct (rev w) eqn:E.
    + apply (f_equal (@rev ascii)) in E. rewrite rev_involutive in E.
      simpl in E; contradiction.
    + simpl in *. now apply andb_true_iff in H.
Qed.

Lemma split_ws_words (t : str) :
  Forall (fun w => tidy w /\ single_word w) (split_ws t).
Proof.
  pose proof (split_from_words [] t eq_refl) as H. fold (split_ws t) in H.
  eapply Forall_impl; [|exact H]. intros w [Hne Hw]. split.
  - now apply nonspace_tidy.
  - now apply single_word_intro.
Qed.

Lemma single_word_nonspace (w : str) :
  single_word w -> w <> [] /\ forallb (fun c => negb (isspace c)) w = true.
Proof.
  intros H. pose proof (split_from_words [] w eq_refl) as F.
  fold (split_ws w) in F. rewrite H in F. now inversion F.
Qed.

(** ** Splitting into sentences *)

Lemma words_of_cons (c : str) (l : list str) :
  words_of (c :: l) = split_ws c ++ words_of l.
Proof. reflexivity. Qed.

Lemma words_of_app (l1 l2 : list str) :
  words_of (l1 ++ l2) = words_of l1 ++ words_of l2.
Proof. unfold words_of. now rewrite map_app, concat_app. Qed.

Lemma words_of_one (c : str) : words_of [c] = split_ws c.
Proof. unfold words_of; simpl. apply app_nil_r. Qed.

(** The sentence pieces carry the words of the text: a separator is a run
    of whitespace, and it is all that is removed. *)
Lemma re_split_from_words (t : str) :
  (forall prev cur,
      words_of (re_split_from prev false cur t) = split_ws (rev cur ++ t))
  /\ (forall prev, words_of (re_split_from prev true [] t) = split_ws t).
Proof.
  induction t as [|c t [IH1 IH2]]; split; intros; simpl.
  - rewrite words_of_one. now rewrite app_nil_r.
  - reflexivity.
  - destruct (prev && isspace c && ws_then_upper t) eqn:M.
    + apply andb_true_iff in M; destruct M as [M _].
      apply andb_true_iff in M; destruct M as [_ Hc].
      rewrite words_of_cons, IH2. symmetry. now apply split_ws_app.
    + rewrite IH1. simpl. now rewrite <- app_assoc.
  - destruct (isspace c) eqn:Hc.
    + rewrite IH2. unfold split_ws at 2. simpl. now rewrite Hc.
    + rewrite IH1. reflexivity.
Qed.

Lemma re_split_words (t : str) : words_of (re_split t) = split_ws t.
Proof. apply (proj1 (re_split_from_words t) false []). Qed.

(** Text without whitespace has no separator. *)
Lemma re_split_from_nospace (t : str) (prev : bool) (cur : str) :
  forallb (fun c => negb (isspace c)) t = true ->
  re_split_from prev false cur t = [rev cur ++ t].
Proof.
  revert prev cur; induction t as [|c t IH]; intros prev cur H; simpl in *.
  - now rewrite app_nil_r.
  - apply andb_true_iff in H; destruct H as [Hc H].
    apply negb_true_iff in Hc. rewrite Hc, andb_false_r. simpl.
    rewrite IH by assumption. simpl. now rewrite <- app_assoc.
Qed.

(** ** The two packing loops *)

Lemma len_app (a b : str) : len (a ++ b) = len a + len b.
Proof. unfold len. rewrite length_app. lia. Qed.

Lemma len_cons (c : ascii) (b : str) : len (c :: b) = 1 + len b.
Proof. unfold len. simpl List.length. lia. Qed.

Lemma len_nonneg (a : str) : 0 <= len a.
Proof. unfold len. lia. Qed.

Lemma gtb_false (a b : Z) : (a >? b) = false -> a <= b.
Proof. intros H. pose proof (Zgt_cases a b) as C. now rewrite H in C. Qed.

Lemma gtb_true (a b : Z) : (a >? b) = true -> b < a.
Proof. intros H. pose proof (Zgt_cases a b) as C. rewrite H in C. lia. Qed.

Lemma good_word (max_chars : Z) (w : str) :
  tidy w -> single_word w -> good max_chars w.
Proof.
  intros T W. split; auto. unfold fits.
  destruct (Z_le_gt_dec (len w) max_chars); [left | right]; auto. split; auto; lia.
Qed.

Lemma good_strip (max_chars : Z) (c : str) :
  good max_chars c -> strip c = c.
Proof. intros [T _]. now apply strip_tidy. Qed.

Lemma packed_current (max_chars : Z) (chunks done : list str)
  (current : str) :
  packed max_chars (chunks, current) done ->
  current <> [] -> good max_chars current.
Proof. intros (_ & _ & [E | G]) Hne; simpl in *; [contradiction | exact G]. Qed.

Lemma word_step_packed (max_chars : Z) (st : list str * str)
  (done : list str) (w : str) :
  packed max_chars st done -> tidy w -> single_word w ->
  packed max_chars (word_step max_chars st w) (done ++ [w]).
Proof.
  destruct st as [chunks current]. intros (W & F & C) Tw Sw.
  cbn [fst snd] in W, F, C. unfold word_step, packed.
  destruct (len current + len w + 1 >? max_chars) eqn:O;
    destruct (truthy current) eqn:T; cbn [fst snd].
  - destruct C as [C | C]; [subst; discriminate|].
    rewrite (good_strip C). repeat split.
    + rewrite words_of_app, words_of_one, Sw. now rewrite W.
    + apply Forall_app; split; auto.
    + right. now apply good_word.
  - apply truthy_false in T. subst current. repeat split.
    + rewrite words_of_app, words_of_one, Sw, app_nil_r.
      cbn in W. rewrite app_nil_r in W. now rewrite W.
    + apply Forall_app; split; auto. constructor; auto.
      now apply good_word.
    + now left.
  - apply gtb_false in O.
    destruct C as [C | C]; [subst; discriminate|]. destruct C as [Tc Fc].
    repeat split; auto.
    + rewrite split_ws_app by reflexivity. now rewrite Sw, app_assoc, W.
    + right. split; [now apply tidy_join|]. left.
      rewrite len_app, len_cons. lia.
  - apply gtb_false in O. apply truthy_false in T. subst current.
    repeat split; auto.
    + cbn in W. rewrite app_nil_r in W. now rewrite Sw, W.
    + right. split; auto. left. change (len []) with 0 in O. lia.
Qed.

Lemma fold_word_step_packed (max_chars : Z) (ws : list str) :
  forall st done,
    packed max_chars st done ->
    Forall (fun w => tidy w /\ single_word w) ws ->
    packed max_chars (fold_left (word_step max_chars) ws st) (done ++ ws).
Proof.
  induction ws as [|w ws IH]; intros st done P F; simpl.
  - now rewrite app_nil_r.
  - inversion F as [|? ? [Tw Sw] F']; subst.
    replace (done ++ w :: ws) with ((done ++ [w]) ++ ws)
      by (now rewrite <- app_assoc).
    apply IH; auto. now apply word_step_packed.
Qed.

Lemma seal_packed (max_chars : Z) (st : list str * str) (done : list str) :
  packed max_chars st done ->
  words_of (seal st) = done /\ Forall (good max_chars) (seal st).
Proof.
  destruct st as [chunks current]. intros (W & F & C). simpl in W, F, C.
  unfold seal. destruct C as [C | C].
  - subst current. simpl. split; auto.
    simpl in W. now rewrite app_nil_r in W.
  - rewrite (good_strip C). rewrite (tidy_truthy (proj1 C)). split.
    + now rewrite words_of_app, words_of_one.
    + apply Forall_app; split; auto.
Qed.

Lemma packed_start (max_chars : Z) : packed max_chars ([], []) [].
Proof. repeat split; simpl; auto. Qed.

(** [_split_by_words] keeps the words of its text and returns good chunks. *)
Lemma split_by_words_spec (text : str) (max_chars : Z) :
  words_of (_split_by_words text max_chars) = split_ws text
  /\ Forall (good max_chars) (_split_by_words text max_chars).
Proof.
  unfold _split_by_words. apply seal_packed.
  change (split_ws text) with ([] ++ split_ws text) at 2.
  apply fold_word_step_packed.
  - apply packed_start.
  - apply split_ws_words.
Qed.

Lemma last_item_nonempty (l : list str) :
  l <> [] -> last_item l = Returns (last l []) /\ l = removelast l ++ [last l []].
Proof.
  intros H. split.
  - destruct l; [contradiction | reflexivity].
  - now apply app_removelast_last.
Qed.

(** One sentence: the step never raises and keeps the invariant. *)
Lemma sentence_step_packed (max_chars : Z) (st : list str * str)
  (done : list str) (sentence : str) :
  packed max_chars st done ->
  exists st',
    sentence_step max_chars st sentence = Returns st'
    /\ packed max_chars st' (done ++ split_ws sentence).
Proof.
  destruct st as [chunks current]. intros P.
  pose proof P as (W & F & C). cbn [fst snd] in W, F, C.
  unfold sentence_step.
  rewrite <- (split_ws_strip sentence).
  destruct (truthy (strip sentence)) eqn:Ts; cbn [negb].
  2:{ apply truthy_false in Ts. rewrite Ts. exists (chunks, current).
      split; auto. cbn. now rewrite app_nil_r. }
  assert (Tidy : tidy (strip sentence))
    by (apply strip_is_tidy; now apply truthy_true).
  set (sen := strip sentence) in *.
  destruct (len current + len sen + 1 >? max_chars) eqn:O.
  - (* the running chunk is sealed first *)
    set (chunks1 := if truthy current then chunks ++ [strip current]
                    else chunks).
    assert (P1 : words_of chunks1 = done /\ Forall (good max_chars) chunks1).
    { unfold chunks1. destruct (truthy current) eqn:T.
      - destruct C as [C | C]; [subst; discriminate|].
        rewrite (good_strip C). split.
        + now rewrite words_of_app, words_of_one.
        + apply Forall_app; split; auto.
      - apply truthy_false in T. subst current. split; auto.
        cbn in W. now rewrite app_nil_r in W. }
    destruct P1 as [W1 F1].
    destruct (len sen >? max_chars) eqn:L.
    + destruct (split_by_words_spec sen max_chars) as [Ww Fw].
      assert (Hne : _split_by_words sen max_chars <> []).
      { intros E. rewrite E in Ww. cbn in Ww.
        symmetry in Ww. now apply tidy_has_words in Ww. }
      destruct (last_item_nonempty Hne) as [EL ER]. rewrite EL.
      eexists; split; [reflexivity|].
      rewrite ER in Ww, Fw. rewrite words_of_app, words_of_one in Ww.
      apply Forall_app in Fw. destruct Fw as [Fw1 Fw2].
      repeat split; cbn [fst snd].
      * rewrite words_of_app, <- app_assoc, Ww. now rewrite W1.
      * apply Forall_app; split; auto.
      * right. now inversion Fw2.
    + apply gtb_false in L. eexists; split; [reflexivity|].
      repeat split; cbn [fst snd]; auto.
      * now rewrite W1.
      * right. split; auto. now left.
  - apply gtb_false in O. destruct (truthy current) eqn:T.
    + destruct C as [C | C]; [subst; discriminate|]. destruct C as [Tc Fc].
      eexists; split; [reflexivity|]. repeat split; cbn [fst snd]; auto.
      * rewrite split_ws_app by reflexivity. now rewrite app_assoc, W.
      * right. split; [now apply tidy_join|]. left.
        rewrite len_app, len_cons. lia.
    + apply truthy_false in T. subst current.
      eexists; split; [reflexivity|]. repeat split; cbn [fst snd]; auto.
      * cbn in W. rewrite app_nil_r in W. now rewrite W.
      * right. split; auto. left. change (len []) with 0 in O. lia.
Qed.

Lemma for_sentences_packed (max_chars : Z) (sentences : list str) :
  forall st done,
    packed max_chars st done ->
    exists st',
      for_sentences max_chars st sentences = Returns st'
      /\ packed max_chars st' (done ++ words_of sentences).
Proof.
  induction sentences as [|sen rest IH]; intros st done P; simpl.
  - exists st. split; auto. cbn. now rewrite app_nil_r.
  - destruct (sentence_step_packed sen P) as (st1 & E1 & P1).
    rewrite E1. destruct (IH _ _ P1) as (st2 & E2 & P2).
    exists st2. split; auto.
    rewrite words_of_cons, app_assoc. exact P2.
Qed.

Lemma strip_empty_no_words (t : str) : strip t = [] -> split_ws t = [].
Proof. intros E. now rewrite <- split_ws_strip, E. Qed.

(** The chunker never raises; its chunks carry the words of the text in
    order, and each chunk is trimmed, non-empty and within the limit unless
    it is one long word.  This holds for every [max_chars]. *)
Lemma chunk_text_spec (text : str) (max_chars : Z) :
  exists chunks,
    chunk_text text max_chars = Returns chunks
    /\ words_of chunks = split_ws text
    /\ Forall (good max_chars) chunks.
Proof.
  unfold chunk_text.
  destruct (negb (truthy text) || negb (truthy (strip text))) eqn:B.
  - exists []. repeat split; auto. cbn. symmetry.
    apply orb_true_iff in B. destruct B as [B | B];
      apply negb_true_iff in B; apply truthy_false in B.
    + now subst.
    + now apply strip_empty_no_words.
  - apply orb_false_iff in B. destruct B as [_ B].
    apply negb_false_iff in B.
    assert (Tidy : tidy (strip text))
      by (apply strip_is_tidy; now apply truthy_true).
    destruct (len text <=? max_chars) eqn:L.
    + apply Z.leb_le in L. exists [strip text]. repeat split.
      * rewrite words_of_one. apply split_ws_strip.
      * constructor; auto. split; auto. left.
        pose proof (strip_length text). lia.
    + destruct (for_sentences_packed (re_split text) (packed_start max_chars))
        as (st & E & P).
      rewrite E. cbn [app] in P. rewrite re_split_words in P.
      apply seal_packed in P. destruct P as [W F].
      exists (seal st). auto.
Qed.

(** ** Blank text *)

Lemma blank_lstrip (t : str) : blank t = true -> lstrip t = [].
Proof.
  unfold blank. induction t as [|c t IH]; simpl; auto.
  intros H. apply andb_true_iff in H. destruct H as [Hc H].
  rewrite Hc. auto.
Qed.

Lemma lstrip_blank (t : str) : lstrip t = [] -> blank t = true.
Proof.
  intros E. destruct (lstrip_decompose t) as [ws [Et W]].
  rewrite E, app_nil_r in Et. now subst.
Qed.

Lemma blank_strip (t : str) : blank t = true <-> strip t = [].
Proof.
  unfold strip, rstrip. split.
  - intros H. now rewrite (blank_lstrip _ H).
  - intros E. apply (f_equal (@rev ascii)) in E.
    rewrite rev_involutive in E. simpl in E.
    apply lstrip_blank in E. unfold blank in E. rewrite forallb_rev in E.
    destruct (lstrip_decompose t) as [ws [Et W]].
    unfold blank. rewrite Et, forallb_app, W. exact E.
Qed.

Lemma blank_false_strip (t : str) : blank t = false -> tidy (strip t).
Proof.
  intros H. apply strip_is_tidy. intros E. apply blank_strip in E. congruence.
Qed.

(** ** Chunking a chunk again *)

Lemma rechunk (max_chars : Z) (c : str) :
  good max_chars c -> chunk_text c max_chars = Returns [c].
Proof.
  intros [T F]. unfold chunk_text.
  rewrite (strip_tidy T), (tidy_truthy T). cbn [negb orb].
  destruct F as [Le | [Gt Sw]].
  - apply Z.leb_le in Le. now rewrite Le.
  - assert (L : (len c <=? max_chars) = false) by (apply Z.leb_gt; lia).
    rewrite L. destruct (single_word_nonspace Sw) as [_ Ns].
    unfold re_split. rewrite (@re_split_from_nospace c false [] Ns).
    cbn [rev app for_sentences]. unfold sentence_step.
    rewrite (strip_tidy T), (tidy_truthy T). cbn [negb].
    assert (G1 : (len [] + len c + 1 >? max_chars) = true)
      by (apply Z.gtb_lt; change (len []) with 0; lia).
    assert (G2 : (len c >? max_chars) = true) by (apply Z.gtb_lt; lia).
    rewrite G1, G2. cbn [truthy].
    unfold _split_by_words. rewrite Sw. cbn [fold_left word_step].
    rewrite G1. cbn [truthy app seal]. rewrite strip_nil. cbn [truthy].
    cbn [last_item removelast last app]. unfold seal.
    now rewrite (strip_tidy T), (tidy_truthy T).
Qed.

(** ** The properties of the specification *)

(** The scenario of the specification: a short text comes back as one
    chunk, unchanged. *)
Example short_text_scenario :
  chunk_text (s "Hello world. This is a test.") 100
  = Returns [s "Hello world. This is a test."].
Proof. reflexivity. Qed.

(** A limit between the two sentences gives one chunk per sentence. *)
Example two_sentences_scenario :
  chunk_text (s "Hello world. This is a test.") 20
  = Returns [s "Hello world."; s "This is a test."].
Proof. reflexivity. Qed.

(** C1.  For every text and every positive [max_chars] the chunker returns,
    and the words of the returned chunks, split on whitespace and taken in
    output order, are exactly the words of the trimmed input: none dropped,
    duplicated or reordered. *)
Theorem chunk_text_preserves_words (text : str) (max_chars : Z) :
  0 < max_chars ->
  exists chunks,
    chunk_text text max_chars = Returns chunks
    /\ words_of chunks = split_ws (strip text).
Proof.
  intros _. destruct (chunk_text_spec text max_chars) as (chunks & E & W & _).
  exists chunks. split; auto. now rewrite split_ws_strip.
Qed.

Lemma chunk_text_preserves_words_witness :
  exists chunks,
    chunk_text (s "  Hello world.  This is a test. and More? Yes ") 10
    = Returns chunks
    /\ words_of chunks
       = split_ws (strip (s "  Hello world.  This is a test. and More? Yes ")).
Proof. apply chunk_text_preserves_words. reflexivity. Defined.

(** C4.  For every text and every positive [max_chars], every returned
    chunk has length at most [max_chars], except a chunk that is a single
    whitespace-free word longer than [max_chars]; no other chunk exceeds the
    limit. *)
Theorem chunk_text_length_bound (text : str) (max_chars : Z) :
  0 < max_chars ->
  exists chunks,
    chunk_text text max_chars = Returns chunks
    /\ Forall (fun c =>
                 len c <= max_chars
                 \/ (max_chars < len c /\ single_word c)) chunks.
Proof.
  intros _. destruct (chunk_text_spec text max_chars) as (chunks & E & _ & G).
  exists chunks. split; auto.
  eapply Forall_impl; [|exact G]. intros c [_ F]. exact F.
Qed.

Lemma chunk_text_length_bound_witness :
  exists chunks,
    chunk_text (s "a bbbbbbbbbbbb c d e. Next one") 5 = Returns chunks
    /\ Forall (fun c => len c <= 5 \/ (5 < len c /\ single_word c)) chunks.
Proof. apply chunk_text_length_bound. reflexivity. Defined.

(** C9.  For every chunk [c] in the output of the chunker for some text and
    positive [max_chars], chunking [c] with the same limit returns the
    one-element sequence [[c]]. *)
Theorem chunk_text_idempotent (text : str) (max_chars : Z)
  (chunks : list str) (c : str) :
  0 < max_chars ->
  chunk_text text max_chars = Returns chunks ->
  In c chunks ->
  chunk_text c max_chars = Returns [c].
Proof.
  intros _ E I.
  destruct (chunk_text_spec text max_chars) as (chunks' & E' & _ & G).
  rewrite E in E'. injection E' as <-.
  apply rechunk. rewrite Forall_forall in G. now apply G.
Qed.

Lemma chunk_text_idempotent_witness :
  chunk_text (s "bbbbbbbbbbbb") 5 = Returns [s "bbbbbbbbbbbb"].
Proof.
  apply (@chunk_text_idempotent (s "a bbbbbbbbbbbb c d e") 5
           [s "a"; s "bbbbbbbbbbbb"; s "c d e"]).
  - reflexivity.
  - reflexivity.
  - simpl. auto.
Defined.

(** C10.  For every text and every integer [max_chars], zero and negative
    included, the chunker returns a list of chunks and raises nothing; with
    [max_chars <= 0] the list is the words of the text, one word per
    chunk. *)
Theorem chunk_text_total (text : str) (max_chars : Z) :
  exists chunks,
    chunk_text text max_chars = Returns chunks
    /\ (max_chars <= 0 -> chunks = split_ws text).
Proof.
  destruct (chunk_text_spec text max_chars) as (chunks & E & W & G).
  exists chunks. split; auto. intros Hmax.
  rewrite <- W. unfold words_of. clear E W.
  induction G as [|c l [T F] G IH]; simpl; auto.
  rewrite <- IH. destruct F as [Le | [_ Sw]].
  - apply tidy_nonempty in T. destruct c; [contradiction|].
    rewrite len_cons in Le. pose proof (len_nonneg c). lia.
  - rewrite Sw. reflexivity.
Qed.

Lemma chunk_text_total_witness :
  exists chunks,
    chunk_text (s " a b  c.  D") (-3) = Returns chunks
    /\ chunks = split_ws (s " a b  c.  D").
Proof.
  destruct (chunk_text_total (s " a b  c.  D") (-3)) as (chunks & E & H).
  exists chunks. split; [exact E | apply H; discriminate].
Defined.

(** C7, as stated, fails: with a non-positive [max_chars] the chunker does
    not raise; on ["a b"] and [0] it returns two chunks. *)
Lemma chunk_text_nonpositive_returns :
  chunk_text (s "a b") 0 = Returns [s "a"; s "b"]
  /\ ~ (exists e, chunk_text (s "a b") 0 = Raises e).
Proof.
  split; [reflexivity|]. intros [e E]. discriminate E.
Qed.

(** C7, amended.  The chunker raises no error on any text, the empty string
    included, for every [max_chars], positive or not: [max_chars] is not
    validated. *)
Theorem chunk_text_never_raises (text : str) (max_chars : Z) :
  (exists chunks, chunk_text text max_chars = Returns chunks)
  /\ (forall e, chunk_text text max_chars <> Raises e)
  /\ chunk_text [] max_chars = Returns [].
Proof.
  destruct (chunk_text_spec text max_chars) as (chunks & E & _).
  repeat split.
  - now exists chunks.
  - intros e. rewrite E. discriminate.
Qed.

(** C8.  With a positive [max_chars], an empty or whitespace-only text
    gives the empty sequence, and every text of length at most [max_chars]
    (one that has something to trim to, the blank ones being settled by
    the first clause) gives exactly one chunk, the trimmed input. *)
Theorem chunk_text_short (text : str) (max_chars : Z) :
  0 < max_chars ->
  (blank text = true -> chunk_text text max_chars = Returns [])
  /\ (blank text = false -> len text <= max_chars ->
      chunk_text text max_chars = Returns [strip text]).
Proof.
  intros _. unfold chunk_text. split.
  - intros B. apply blank_strip in B. rewrite B. cbn [truthy negb].
    now rewrite orb_true_r.
  - intros B L. apply blank_false_strip in B.
    rewrite (tidy_truthy B).
    assert (Tt : truthy text = true).
    { destruct text; [|reflexivity]. now apply tidy_nonempty in B. }
    rewrite Tt. cbn [negb orb]. apply Z.leb_le in L. now rewrite L.
Qed.

Lemma chunk_text_short_witness :
  chunk_text (s "   ") 5 = Returns []
  /\ chunk_text (s " Hello world. This is a test. ") 100
     = Returns [s "Hello world. This is a test."].
Proof.
  split.
  - apply (proj1 (@chunk_text_short (s "   ") 5 eq_refl)). reflexivity.
  - apply (proj2 (@chunk_text_short (s " Hello world. This is a test. ") 100
                    eq_refl)).
    + reflexivity.
    + discriminate.
Defined.

End ChunkerFacts.

(** * Properties of the job orchestrator *)

Module OrchestratorFacts.

Import Orchestrator.
Open Scope string_scope.

(** ** The loops, one iteration at a time *)

Lemma poll_loop_unfold (rs : list (result detection)) (job_id : string)
  (attempt : nat) :
  poll_loop rs job_id attempt =
  if (max_attempts <=? attempt)%nat then
    raise (RuntimeError
             "Textract job timed out - took longer than expected to complete")
  else
    match rs with
    | [] => ([], None)
    | reply :: rest =>
        emit (GetDetection job_id None)
          match reply with
          | Returns result =>
              if JobStatus result =? "SUCCEEDED" then
                emit (Collected (line_texts result))
                  (pagination_loop rest job_id attempt result
                     (line_texts result))
              else if JobStatus result =? "FAILED" then
                raise (RuntimeError
                         ("Textract job failed: " ++ failure_reason result))
              else if JobStatus result =? "IN_PROGRESS" then
                emit (Sleep 5) (poll_loop rest job_id (S attempt))
              else poll_loop rest job_id attempt
          | Raises (ClientError e) =>
              on_client_error attempt e (poll_loop rest job_id (S attempt))
          | Raises e => raise e
          end
    end.
Proof. destruct rs; reflexivity. Qed.

Lemma pagination_loop_unfold (rs : list (result detection))
  (job_id : string) (attempt : nat) (d : detection)
  (text_lines : list string) :
  pagination_loop rs job_id attempt d text_lines =
  match NextToken d with
  | None => ([], Some (Returns (String.concat newline text_lines)))
  | Some token =>
      match rs with
      | [] => ([], None)
      | reply :: rest =>
          emit (GetDetection job_id (Some token))
            match reply with
            | Returns d' =>
                emit (Collected (text_lines ++ line_texts d')%list)
                  (pagination_loop rest job_id attempt d'
                     (text_lines ++ line_texts d')%list)
            | Raises (ClientError e) =>
                on_client_error attempt e (poll_loop rest job_id (S attempt))
            | Raises e => raise e
            end
      end
  end.
Proof. destruct rs; reflexivity. Qed.

Lemma after_nil (r : run) : after [] r = r.
Proof. destruct r; reflexivity. Qed.

Lemma after_emit (ev : event) (tr : list event) (r : run) :
  emit ev (after tr r) = after (ev :: tr) r.
Proof. reflexivity. Qed.

Lemma after_app (tr1 tr2 : list event) (r : run) :
  after tr1 (after tr2 r) = after (tr1 ++ tr2)%list r.
Proof. unfold after; simpl. now rewrite app_assoc. Qed.

(** On pending replies the polling loop goes on, as long as attempts
    remain. *)
Lemma poll_loop_pending (pre rest : list (result detection))
  (job_id : string) :
  forall attempt,
    forallb pending_reply pre = true ->
    (attempt + attempts_used pre < max_attempts)%nat ->
    poll_loop (pre ++ rest) job_id attempt
    = after (pending_events job_id pre)
        (poll_loop rest job_id (attempt + attempts_used pre)).
Proof.
  induction pre as [|r pre IH]; intros attempt P A.
  - simpl. now rewrite Nat.add_0_r, after_nil.
  - simpl in P. apply andb_true_iff in P. destruct P as [Pr P].
    cbn [attempts_used] in A.
    cbn [app]. rewrite poll_loop_unfold.
    assert (G : (max_attempts <=? attempt)%nat = false)
      by (apply Nat.leb_gt; lia).
    rewrite G. cbn [attempts_used pending_events].
    destruct r as [d | e].
    + simpl in Pr. apply andb_true_iff in Pr. destruct Pr as [P1 P2].
      apply negb_true_iff in P1, P2. rewrite P1, P2.
      cbn [uses_attempt] in *.
      destruct (JobStatus d =? "IN_PROGRESS").
      * rewrite IH by (auto; lia).
        rewrite !after_emit. simpl app. f_equal. f_equal. lia.
      * rewrite IH by (auto; simpl in A; lia).
        rewrite !after_emit. reflexivity.
    + destruct e; try discriminate Pr. cbn [uses_attempt] in *.
      unfold on_client_error.
      assert (L : (attempt <? max_attempts - 1)%nat = true)
        by (apply Nat.ltb_lt; unfold max_attempts in *; lia).
      rewrite L. rewrite IH by (auto; lia).
      rewrite !after_emit. simpl app. f_equal. f_equal. lia.
Qed.

(** ** Pagination *)


Lemma queries_app (tr1 tr2 : list event) :
  queries (tr1 ++ tr2)%list = (queries tr1 ++ queries tr2)%list.
Proof.
  induction tr1 as [|ev tr1 IH]; simpl; auto.
  destruct ev; simpl; now rewrite ?IH.
Qed.

Lemma queries_pending (job_id : string) (pre : list (result detection)) :
  queries (pending_events job_id pre) = map (fun _ => None) pre.
Proof.
  induction pre as [|r pre IH]; simpl; auto.
  f_equal. rewrite queries_app, IH. now destruct (uses_attempt r).
Qed.


(** The prologue of the function, for a configured client. *)
Lemma extract_configured (cfg : config) (svc : service) (key bucket : string)
  (job_id : string) :
  textract_initialized cfg = true ->
  S3_BUCKET cfg = Some bucket -> bucket <> "" ->
  start_reply svc = Returns job_id ->
  extract_text_from_s3 cfg svc key
  = emit (StartDetection bucket key)
      (handled (poll_loop (replies svc) job_id 0)).
Proof.
  intros T B N S. unfold extract_text_from_s3. rewrite T, B, S. simpl.
  destruct bucket; [contradiction | reflexivity].
Qed.

Lemma texts_of_line_blocks_filter (bs : list block) :
  texts_of_line_blocks bs
  = map Text (filter (fun b => BlockType b =? "LINE") bs).
Proof.
  induction bs as [|b bs IH]; simpl; auto.
  destruct (BlockType b =? "LINE"); simpl; now rewrite IH.
Qed.


(** What the extraction loop appends for a page is the page's LINE texts. *)
Lemma line_texts_of_page (d : detection) :
  line_texts d = texts_of_line_blocks (page_blocks d).
Proof. unfold line_texts, page_blocks. now rewrite texts_of_line_blocks_filter. Qed.




(** The scenario of the specification: [IN_PROGRESS], [IN_PROGRESS], then
    [SUCCEEDED] with lines A, B and a token, then line C and no token. *)
Example pagination_scenario :
  snd (extract_text_from_s3 sample_config
         (answering [Returns (status_only "IN_PROGRESS");
                     Returns (status_only "IN_PROGRESS");
                     Returns (page [line "A"; line "B"] (Some "t1"));
                     Returns (page [line "C"] None)])
         "reports/scan.pdf")
  = Some (Returns ("A" ++ newline ++ "B" ++ newline ++ "C")).
Proof. reflexivity. Qed.

(** ** Termination of the polling loop *)

Lemma poll_loop_unknown_status (d : detection) (job_id : string) (n : nat) :
  (JobStatus d =? "SUCCEEDED") = false ->
  (JobStatus d =? "FAILED") = false ->
  (JobStatus d =? "IN_PROGRESS") = false ->
  poll_loop (repeat (Returns d) n) job_id 0
  = (repeat (GetDetection job_id None) n, None).
Proof.
  intros S F I. induction n as [|n IH]; [reflexivity|].
  cbn [repeat]. rewrite poll_loop_unfold. cbn [max_attempts Nat.leb].
  rewrite S, F, I, IH. reflexivity.
Qed.

(** C3 (the polling loop ends within [max_attempts] polls whatever the
    service answers) does not hold of the code.  When every poll answers
    [PARTIAL_SUCCESS], a status outside the three the loop tests, then
    after any number [n] of polls the function has neither returned nor
    raised: it has issued [n] queries, never slept and never counted an
    attempt. *)
Theorem polling_spins_on_unknown_status (n : nat) :
  extract_text_from_s3 sample_config
    (answering (repeat (Returns (status_only "PARTIAL_SUCCESS")) n))
    "reports/scan.pdf"
  = (StartDetection "reports-bucket" "reports/scan.pdf"
       :: repeat (GetDetection "job-1" None) n,
     None).
Proof.
  unfold extract_text_from_s3, answering. cbn [sample_config
    textract_initialized S3_BUCKET negb start_reply replies].
  rewrite poll_loop_unknown_status by reflexivity. reflexivity.
Qed.

(** The sleeps of a run never exceed the attempts that remain: whatever the
    service does, the function sleeps at most [max_attempts] times. *)
Lemma sleeps_bounded (rs : list (result detection)) :
  (forall job_id attempt,
      (attempt <= max_attempts)%nat ->
      (sleeps (fst (poll_loop rs job_id attempt)) + attempt
       <= max_attempts)%nat)
  /\ (forall job_id attempt d text_lines,
         (attempt < max_attempts)%nat ->
         (sleeps (fst (pagination_loop rs job_id attempt d text_lines))
          + attempt <= max_attempts)%nat).
Proof.
  induction rs as [|r rs [IH1 IH2]]; split; intros.
  - rewrite poll_loop_unfold. destruct (max_attempts <=? attempt)%nat; simpl; lia.
  - rewrite pagination_loop_unfold. destruct (NextToken d); simpl; lia.
  - rewrite poll_loop_unfold.
    destruct (max_attempts <=? attempt)%nat eqn:G; [simpl; lia|].
    apply Nat.leb_gt in G.
    destruct r as [d | e].
    + destruct (JobStatus d =? "SUCCEEDED"); [apply IH2; lia|].
      destruct (JobStatus d =? "FAILED"); [simpl; lia|].
      destruct (JobStatus d =? "IN_PROGRESS"); [|apply IH1; lia].
      cbn [emit fst sleeps]. specialize (IH1 job_id (S attempt)). lia.
    + destruct e; try (simpl; lia). unfold on_client_error.
      destruct (attempt <? max_attempts - 1)%nat eqn:L; [|simpl; lia].
      cbn [emit fst sleeps]. specialize (IH1 job_id (S attempt)). lia.
  - rewrite pagination_loop_unfold.
    destruct (NextToken d); [|simpl; lia].
    destruct r as [d' | e].
    + cbn [emit fst sleeps]. apply IH2; lia.
    + destruct e; try (simpl; lia). unfold on_client_error.
      destruct (attempt <? max_attempts - 1)%nat eqn:L; [|simpl; lia].
      cbn [emit fst sleeps]. specialize (IH1 job_id (S attempt)). lia.
Qed.

(** When every status is one of the three the loop tests, each poll ends
    the run or consumes an attempt: the run polls at most [max_attempts]
    times, whatever else the service does. *)
Lemma polls_bounded (rs : list (result detection)) :
  forallb tested_status rs = true ->
  (forall job_id attempt,
      (attempt <= max_attempts)%nat ->
      (polls (fst (poll_loop rs job_id attempt)) + attempt
       <= max_attempts)%nat)
  /\ (forall job_id attempt d text_lines,
         (attempt < max_attempts)%nat ->
         (polls (fst (pagination_loop rs job_id attempt d text_lines))
          + S attempt <= max_attempts)%nat).
Proof.
  induction rs as [|r rs IH]; intros K.
  - split; intros.
    + rewrite poll_loop_unfold.
      destruct (max_attempts <=? attempt)%nat; simpl; lia.
    + rewrite pagination_loop_unfold. destruct (NextToken d); simpl; lia.
  - simpl in K. apply andb_true_iff in K. destruct K as [Kr K].
    destruct (IH K) as [IH1 IH2]. split; intros.
    + rewrite poll_loop_unfold.
      destruct (max_attempts <=? attempt)%nat eqn:G; [simpl; lia|].
      apply Nat.leb_gt in G. cbn [emit fst polls].
      destruct r as [d | e].
      * simpl in Kr.
        destruct (JobStatus d =? "SUCCEEDED").
        { cbn [emit fst polls].
          specialize (IH2 job_id attempt d (line_texts d)). lia. }
        destruct (JobStatus d =? "FAILED"); [simpl; lia|].
        destruct (JobStatus d =? "IN_PROGRESS"); [|discriminate Kr].
        cbn [emit fst polls]. specialize (IH1 job_id (S attempt)). lia.
      * destruct e; try (simpl; lia). unfold on_client_error.
        destruct (attempt <? max_attempts - 1)%nat eqn:L; [|simpl; lia].
        cbn [emit fst polls]. specialize (IH1 job_id (S attempt)). lia.
    + rewrite pagination_loop_unfold.
      destruct (NextToken d); [|simpl; lia]. cbn [emit fst polls].
      destruct r as [d' | e].
      * cbn [emit fst polls]. apply IH2; lia.
      * destruct e; try (simpl; lia). unfold on_client_error.
        destruct (attempt <? max_attempts - 1)%nat eqn:L; [|simpl; lia].
        apply Nat.ltb_lt in L.
        cbn [emit fst polls]. specialize (IH1 job_id (S attempt)). lia.
Qed.

(** ** The accumulated lines *)

(** Without a [ClientError], every value of [text_lines] extends the one
    before it. *)
Lemma grows_without_error (rs : list (result detection)) :
  no_client_error rs = true ->
  (forall job_id attempt,
      grows (snapshots (fst (poll_loop rs job_id attempt))))
  /\ (forall job_id attempt d text_lines,
         grows (text_lines
                  :: snapshots
                       (fst (pagination_loop rs job_id attempt d
                               text_lines)))).
Proof.
  induction rs as [|r rs IH]; intros N.
  - split; intros.
    + rewrite poll_loop_unfold.
      destruct (max_attempts <=? attempt)%nat; exact I.
    + rewrite pagination_loop_unfold. destruct (NextToken d); exact I.
  - simpl in N. apply andb_true_iff in N. destruct N as [Nr N].
    destruct (IH N) as [IH1 IH2]. split; intros.
    + rewrite poll_loop_unfold.
      destruct (max_attempts <=? attempt)%nat; [exact I|].
      destruct r as [d | e].
      * destruct (JobStatus d =? "SUCCEEDED"); [apply IH2|].
        destruct (JobStatus d =? "FAILED"); [exact I|].
        destruct (JobStatus d =? "IN_PROGRESS"); apply IH1.
      * destruct e; try discriminate Nr; exact I.
    + rewrite pagination_loop_unfold.
      destruct (NextToken d); [|simpl; exact I].
      destruct r as [d' | e].
      * cbn [emit fst snapshots].
        split; [now exists (line_texts d') | apply IH2].
      * destruct e; try discriminate Nr; simpl; exact I.
Qed.

Lemma snapshots_app (tr1 tr2 : list event) :
  snapshots (tr1 ++ tr2)%list = (snapshots tr1 ++ snapshots tr2)%list.
Proof.
  induction tr1 as [|ev tr1 IH]; simpl; auto.
  destruct ev; simpl; now rewrite ?IH.
Qed.

Lemma snapshots_pending (job_id : string) (pre : list (result detection)) :
  snapshots (pending_events job_id pre) = [].
Proof.
  induction pre as [|r pre IH]; simpl; auto.
  rewrite snapshots_app, IH. now destruct (uses_attempt r).
Qed.

Lemma last_cons (A : Type) (p : A) (ps : list A) (d : A) :
  last (p :: ps) d = last ps p.
Proof.
  revert p d; induction ps as [|q ps IH]; intros p d; [reflexivity|].
  change (last (p :: q :: ps) d) with (last (q :: ps) d).
  now rewrite !IH.
Qed.

(** A pagination that no [ClientError] interrupts: after every page the
    accumulated lines are those before it followed by the LINE texts of
    that page. *)
Lemma pagination_snapshots (more : list detection) :
  forall (rest : list (result detection)) (job_id : string) (attempt : nat)
         (d : detection) (text_lines : list string),
    chained d more ->
    pagination_ends (last more d) rest ->
    snapshots (fst (pagination_loop (map Returns more ++ rest)%list job_id
                      attempt d text_lines))
    = accumulations text_lines more.
Proof.
  induction more as [|p ps IH]; intros rest job_id attempt d text_lines C E;
    rewrite pagination_loop_unfold.
  - unfold pagination_ends in E. cbn [last map app] in *.
    destruct (NextToken d) as [tok|]; [|reflexivity].
    destruct E as [E | [E | (e & tl & E & NC)]].
    + discriminate E.
    + subst rest. reflexivity.
    + subst rest. destruct e; try reflexivity. now contradiction NC.
  - destruct C as [Tok C]. destruct (NextToken d); [|contradiction].
    rewrite last_cons in E. cbn [map app emit fst snapshots accumulations].
    rewrite <- line_texts_of_page. f_equal. now apply IH.
Qed.

Lemma grows_accumulations (pages : list detection) :
  forall acc, grows (acc :: accumulations acc pages).
Proof.
  induction pages as [|p ps IH]; intros acc; [exact I|].
  cbn [accumulations]. split; [eexists; reflexivity | apply IH].
Qed.

Lemma grows_tail (a : list string) (l : list (list string)) :
  grows (a :: l) -> grows l.
Proof. destruct l; [intros; exact I | intros [_ G]; exact G]. Qed.

(** C5, as stated, fails: after two pages were collected, a [ClientError]
    on the query for the third page makes the function start over; the
    list that held A and B then holds A alone. *)
Lemma accumulated_lines_truncated :
  snapshots (fst (extract_text_from_s3 sample_config interrupted_pagination
                    "reports/scan.pdf"))
  = [["A"]; ["A"; "B"]; ["A"]; ["A"; "B"]; ["A"; "B"; "C"]]
  /\ ~ grows (snapshots
                (fst (extract_text_from_s3 sample_config
                        interrupted_pagination "reports/scan.pdf"))).
Proof.
  split; [reflexivity|].
  intros (_ & ([ext E] & _)). destruct ext; discriminate E.
Qed.

(** C5, amended.  While the function paginates the pages [first :: more]
    of a [SUCCEEDED] job and no [ClientError] interrupts the pagination
    (errors on the status polls before [SUCCEEDED] do not matter), the
    accumulated line texts only grow: after each page they are the lines
    held before followed by the LINE texts of that page, and nothing is
    removed.  A [ClientError] on a pagination query discards them: what
    the function does from there on does not depend on the lines collected
    so far. *)
Theorem accumulated_lines_grow :
  (forall (cfg : config) (bucket key job_id : string)
          (pre : list (result detection)) (first : detection)
          (more : list detection) (rest : list (result detection)),
      textract_initialized cfg = true ->
      S3_BUCKET cfg = Some bucket -> bucket <> "" ->
      forallb pending_reply pre = true ->
      (attempts_used pre < max_attempts)%nat ->
      JobStatus first = "SUCCEEDED" ->
      chained first more ->
      pagination_ends (last more first) rest ->
      let tr := fst (extract_text_from_s3 cfg
                       {| start_reply := Returns job_id;
                          replies := (pre ++ Returns first
                                          :: map Returns more ++ rest)%list |}
                       key) in
      snapshots tr = accumulations [] (first :: more)
      /\ grows (snapshots tr))
  /\ (forall rest job_id attempt d e text_lines text_lines',
         NextToken d <> None ->
         pagination_loop (Raises (ClientError e) :: rest) job_id attempt d
           text_lines
         = pagination_loop (Raises (ClientError e) :: rest) job_id attempt d
             text_lines').
Proof.
  split.
  - intros cfg bucket key job_id pre first more rest T B N P A S C E tr.
    assert (Eq : snapshots tr = accumulations [] (first :: more)).
    { subst tr.
      match goal with
      | |- context [extract_text_from_s3 _ ?svc _] =>
          rewrite (@extract_configured cfg svc key bucket job_id T B N
                     eq_refl)
      end.
      cbn [replies]. rewrite (@poll_loop_pending pre _ job_id 0 P A).
      rewrite poll_loop_unfold.
      assert (G : (max_attempts <=? 0 + attempts_used pre)%nat = false)
        by (apply Nat.leb_gt; lia).
      rewrite G, S. change ("SUCCEEDED" =? "SUCCEEDED") with true. cbn iota.
      cbn [emit handled fst snapshots]. unfold after. cbn [fst].
      rewrite snapshots_app, snapshots_pending.
      cbn [app emit fst snapshots accumulations].
      rewrite pagination_snapshots by assumption.
      now rewrite <- line_texts_of_page. }
    split; [exact Eq|]. rewrite Eq.
    apply grows_tail with (a := []). apply grows_accumulations.
  - intros rest job_id attempt d e l l' T.
    rewrite !pagination_loop_unfold.
    destruct (NextToken d); [reflexivity | contradiction].
Qed.

Lemma accumulated_lines_grow_witness :
  (let tr := fst (extract_text_from_s3 sample_config
                    {| start_reply := Returns "job-1";
                       replies :=
                         ([Raises (ClientError "throttled");
                           Returns (status_only "IN_PROGRESS")]
                            ++ Returns (page [line "A"; word "x"] (Some "t1"))
                            :: map Returns [page [line "B"] (Some "t2")]
                            ++ [])%list |}
                    "reports/scan.pdf") in
   snapshots tr = [["A"]; ["A"; "B"]] /\ grows (snapshots tr))
  /\ pagination_loop
       (Raises (ClientError "throttled") :: [Returns (page [line "A"] None)])
       "job-1" 0 (page [line "B"] (Some "t2")) ["A"; "B"]
     = pagination_loop
         (Raises (ClientError "throttled")
            :: [Returns (page [line "A"] None)])
         "job-1" 0 (page [line "B"] (Some "t2")) [].
Proof.
  split.
  - refine (proj1 accumulated_lines_grow sample_config "reports-bucket"
              "reports/scan.pdf" "job-1"
              [Raises (ClientError "throttled");
               Returns (status_only "IN_PROGRESS")]
              (page [line "A"; word "x"] (Some "t1"))
              [page [line "B"] (Some "t2")] [] _ _ _ _ _ _ _ _).
    + reflexivity.
    + reflexivity.
    + discriminate.
    + reflexivity.
    + unfold max_attempts; simpl; lia.
    + reflexivity.
    + simpl; split; [discriminate | exact I].
    + right. left. reflexivity.
  - apply (proj2 accumulated_lines_grow). discriminate.
Defined.

(** ** The failure modes *)

Lemma snd_handled_after (tr : list event) (r : run) :
  snd (handled (after tr r))
  = match snd r with
    | Some (Raises e) => Some (Raises (outer_handler e))
    | o => o
    end.
Proof. reflexivity. Qed.

(** After pending replies that leave [k] attempts used, the function is at
    the head of the polling loop with [attempt = k]. *)
Lemma extract_after_pending (cfg : config) (bucket key job_id : string)
  (pre rest : list (result detection)) :
  textract_initialized cfg = true ->
  S3_BUCKET cfg = Some bucket -> bucket <> "" ->
  forallb pending_reply pre = true ->
  (attempts_used pre < max_attempts)%nat ->
  snd (extract_text_from_s3 cfg
         {| start_reply := Returns job_id; replies := (pre ++ rest)%list |}
         key)
  = match snd (poll_loop rest job_id (attempts_used pre)) with
    | Some (Raises e) => Some (Raises (outer_handler e))
    | o => o
    end.
Proof.
  intros T B N P A.
  match goal with
  | |- context [extract_text_from_s3 _ ?svc _] =>
      rewrite (@extract_configured cfg svc key bucket job_id T B N eq_refl)
  end.
  cbn [replies]. rewrite (@poll_loop_pending pre rest job_id 0 P A).
  cbn [emit snd]. now rewrite snd_handled_after.
Qed.

(** C6, as stated, fails: the timeout and the failed job reach the caller
    as exceptions of one and the same class. *)
Lemma timeout_and_failure_share_class :
  exists e_timeout e_failed,
    snd (extract_text_from_s3 sample_config
           (answering (repeat (Returns (status_only "IN_PROGRESS")) 60))
           "reports/scan.pdf")
    = Some (Raises e_timeout)
    /\ snd (extract_text_from_s3 sample_config
              (answering [Returns (failed_with "unsupported document")])
              "reports/scan.pdf")
       = Some (Raises e_failed)
    /\ class_of e_timeout = class_of e_failed.
Proof.
  eexists. eexists. split; [|split].
  - vm_compute. reflexivity.
  - vm_compute. reflexivity.
  - reflexivity.
Qed.

(** C6, amended.  Each of the four failure modes reaches the caller as a
    [RuntimeError], the same class for all four, and none is swallowed:
    a rejected submission, a job reported [FAILED] (with the reason the
    service gave), the attempt bound exhausted while the job is still in
    progress, and a [ClientError] on the last attempt.  The modes differ in
    the message, and the four messages are pairwise different. *)
Theorem failures_are_runtime_errors (cfg : config) (bucket key : string) :
  textract_initialized cfg = true ->
  S3_BUCKET cfg = Some bucket -> bucket <> "" ->
  (forall e rs,
      snd (extract_text_from_s3 cfg
             {| start_reply := Raises (ClientError e); replies := rs |} key)
      = Some (Raises (RuntimeError (submission_message e))))
  /\ (forall job_id pre d rest,
         forallb pending_reply pre = true ->
         (attempts_used pre < max_attempts)%nat ->
         JobStatus d = "FAILED" ->
         snd (extract_text_from_s3 cfg
                {| start_reply := Returns job_id;
                   replies := (pre ++ Returns d :: rest)%list |} key)
         = Some (Raises (RuntimeError
                           (job_failed_message (failure_reason d)))))
  /\ (forall job_id pre d rest,
         forallb pending_reply pre = true ->
         (attempts_used pre = max_attempts - 1)%nat ->
         JobStatus d = "IN_PROGRESS" ->
         snd (extract_text_from_s3 cfg
                {| start_reply := Returns job_id;
                   replies := (pre ++ Returns d :: rest)%list |} key)
         = Some (Raises (RuntimeError timeout_message)))
  /\ (forall job_id pre e rest,
         forallb pending_reply pre = true ->
         (attempts_used pre = max_attempts - 1)%nat ->
         snd (extract_text_from_s3 cfg
                {| start_reply := Returns job_id;
                   replies := (pre ++ Raises (ClientError e) :: rest)%list |}
                key)
         = Some (Raises (RuntimeError (polling_message e))))
  /\ (forall e reason e',
         submission_message e <> job_failed_message reason
         /\ submission_message e <> timeout_message
         /\ submission_message e <> polling_message e'
         /\ job_failed_message reason <> timeout_message
         /\ job_failed_message reason <> polling_message e'
         /\ timeout_message <> polling_message e').
Proof.
  intros T B N. repeat apply conj.
  - intros e rs. unfold extract_text_from_s3. rewrite T, B. cbn [negb].
    destruct bucket; [contradiction | reflexivity].
  - intros job_id pre d rest P A S.
    rewrite (@extract_after_pending cfg bucket key job_id pre _ T B N P A).
    rewrite poll_loop_unfold.
    assert (G : (max_attempts <=? attempts_used pre)%nat = false)
      by (apply Nat.leb_gt; lia).
    rewrite G, S. reflexivity.
  - intros job_id pre d rest P A S.
    assert (A' : (attempts_used pre < max_attempts)%nat)
      by (unfold max_attempts in *; lia).
    rewrite (@extract_after_pending cfg bucket key job_id pre _ T B N P A').
    rewrite poll_loop_unfold, A, S. cbn [max_attempts Nat.sub Nat.leb].
    change ("IN_PROGRESS" =? "SUCCEEDED") with false.
    change ("IN_PROGRESS" =? "FAILED") with false.
    change ("IN_PROGRESS" =? "IN_PROGRESS") with true. cbn iota.
    rewrite poll_loop_unfold. reflexivity.
  - intros job_id pre e rest P A.
    assert (A' : (attempts_used pre < max_attempts)%nat)
      by (unfold max_attempts in *; lia).
    rewrite (@extract_after_pending cfg bucket key job_id pre _ T B N P A').
    rewrite poll_loop_unfold, A. reflexivity.
  - intros e reason e'. repeat apply conj; intros H; vm_compute in H;
      discriminate H.
Qed.

Lemma failures_are_runtime_errors_witness :
  snd (extract_text_from_s3 sample_config
         {| start_reply := Raises (ClientError "quota exceeded");
            replies := [] |} "reports/scan.pdf")
  = Some (Raises (RuntimeError (submission_message "quota exceeded")))
  /\ snd (extract_text_from_s3 sample_config
            {| start_reply := Returns "job-1";
               replies := ([Returns (status_only "IN_PROGRESS")]
                             ++ Returns (failed_with "unsupported document")
                             :: [])%list |} "reports/scan.pdf")
     = Some (Raises (RuntimeError
                       (job_failed_message
                          (failure_reason
                             (failed_with "unsupported document")))))
  /\ snd (extract_text_from_s3 sample_config
            {| start_reply := Returns "job-1";
               replies := (repeat (Returns (status_only "IN_PROGRESS")) 59
                             ++ Returns (status_only "IN_PROGRESS")
                             :: [])%list |} "reports/scan.pdf")
     = Some (Raises (RuntimeError timeout_message))
  /\ snd (extract_text_from_s3 sample_config
            {| start_reply := Returns "job-1";
               replies := (repeat (Returns (status_only "IN_PROGRESS")) 59
                             ++ Raises (ClientError "throttled")
                             :: [])%list |} "reports/scan.pdf")
     = Some (Raises (RuntimeError (polling_message "throttled"))).
Proof.
  destruct (@failures_are_runtime_errors sample_config "reports-bucket"
              "reports/scan.pdf" eq_refl eq_refl)
    as (H1 & H2 & H3 & H4 & _).
  - discriminate.
  - repeat apply conj.
    + apply H1.
    + apply H2; [reflexivity | unfold max_attempts; simpl; lia | reflexivity].
    + apply H3; reflexivity.
    + apply H4; reflexivity.
Defined.

End OrchestratorFacts.

(** * Further properties of the text chunker *)

Module ChunkerMore.

Import Chunker ChunkerFacts.
Open Scope Z_scope.

(** ** Shape of the chunks *)

Lemma no_words_blank (t : str) : split_ws t = [] -> blank t = true.
Proof.
  intros E. destruct (blank t) eqn:B; auto.
  apply blank_false_strip in B. apply tidy_has_words in B.
  rewrite split_ws_strip in B. contradiction.
Qed.

Lemma blank_no_words (t : str) : blank t = true -> split_ws t = [].
Proof. intros B. apply strip_empty_no_words. now apply blank_strip. Qed.

(** Every chunk the chunker returns is non-empty and carries no whitespace
    at either end, whatever [max_chars] is. *)
Theorem chunks_are_trimmed (text : str) (max_chars : Z) :
  exists chunks,
    chunk_text text max_chars = Returns chunks
    /\ Forall (fun c => c <> [] /\ strip c = c
                        /\ hd_nonspace c = true
                        /\ hd_nonspace (rev c) = true) chunks.
Proof.
  destruct (chunk_text_spec text max_chars) as (chunks & E & _ & G).
  exists chunks. split; auto.
  eapply Forall_impl; [|exact G]. intros c [T _]. repeat split.
  - now apply tidy_nonempty.
  - now apply strip_tidy.
  - apply T.
  - apply T.
Qed.

(** The chunker returns no chunk at all exactly for empty or
    whitespace-only text. *)
Theorem no_chunks_iff_blank (text : str) (max_chars : Z) :
  chunk_text text max_chars = Returns [] <-> blank text = true.
Proof.
  destruct (chunk_text_spec text max_chars) as (chunks & E & W & _).
  split.
  - intros E0. rewrite E0 in E. injection E as <-.
    apply no_words_blank. now rewrite <- W.
  - intros B. unfold chunk_text. apply blank_strip in B. rewrite B.
    cbn [truthy negb]. now rewrite orb_true_r.
Qed.

Lemma length_words_of (max_chars : Z) (chunks : list str) :
  Forall (good max_chars) chunks ->
  (List.length chunks <= List.length (words_of chunks))%nat.
Proof.
  induction 1 as [|c l [T _] _ IH]; simpl; auto.
  rewrite words_of_cons, length_app.
  apply tidy_has_words in T. destruct (split_ws c); [contradiction|].
  simpl. lia.
Qed.

(** There are never more chunks than words: every chunk holds at least one
    word of the text. *)
Theorem chunks_at_most_words (text : str) (max_chars : Z) :
  exists chunks,
    chunk_text text max_chars = Returns chunks
    /\ (List.length chunks <= List.length (split_ws text))%nat.
Proof.
  destruct (chunk_text_spec text max_chars) as (chunks & E & W & G).
  exists chunks. split; auto. rewrite <- W.
  now apply length_words_of with max_chars.
Qed.

(** ** [_split_by_words] on its own *)

Lemma join_space_snoc (ws : list str) (w : str) :
  ws <> [] -> join_space (ws ++ [w]) = join_space ws ++ " "%char :: w.
Proof.
  induction ws as [|a ws IH]; intros H; [contradiction|].
  destruct ws as [|b ws]; [reflexivity|].
  change (join_space ((a :: b :: ws) ++ [w]))
    with (a ++ " "%char :: join_space ((b :: ws) ++ [w])).
  rewrite IH by discriminate.
  change (join_space (a :: b :: ws))
    with (a ++ " "%char :: join_space (b :: ws)).
  now rewrite <- app_assoc.
Qed.

Lemma normalized_nil : normalized [].
Proof. reflexivity. Qed.

Lemma normalized_word (w : str) : single_word w -> normalized w.
Proof. intros H. unfold normalized. now rewrite H. Qed.

Lemma normalized_join (cur w : str) :
  tidy cur -> normalized cur -> single_word w ->
  normalized (cur ++ " "%char :: w).
Proof.
  intros T N W. unfold normalized.
  rewrite split_ws_app by reflexivity. rewrite W.
  rewrite join_space_snoc by now apply tidy_has_words.
  now rewrite <- N.
Qed.

Lemma word_step_normalized (max_chars : Z) (st : list str * str)
  (done : list str) (w : str) :
  packed max_chars st done ->
  Forall normalized (fst st) /\ normalized (snd st) ->
  tidy w -> single_word w ->
  Forall normalized (fst (word_step max_chars st w))
  /\ normalized (snd (word_step max_chars st w)).
Proof.
  destruct st as [chunks current]. intros (_ & _ & C) [NF NC] Tw Sw.
  cbn [fst snd] in *. unfold word_step.
  destruct (len current + len w + 1 >? max_chars);
    destruct (truthy current) eqn:T; cbn [fst snd].
  - destruct C as [C | C]; [subst; discriminate|].
    rewrite (good_strip C). split.
    + apply Forall_app; split; auto.
    + now apply normalized_word.
  - split; auto. apply Forall_app; split; auto.
    constructor; auto. now apply normalized_word.
  - destruct C as [C | C]; [subst; discriminate|].
    split; auto. apply normalized_join; auto. apply C.
  - split; auto. now apply normalized_word.
Qed.

Lemma fold_word_step_normalized (max_chars : Z) (ws : list str) :
  forall st done,
    packed max_chars st done ->
    Forall normalized (fst st) /\ normalized (snd st) ->
    Forall (fun w => tidy w /\ single_word w) ws ->
    Forall normalized (fst (fold_left (word_step max_chars) ws st))
    /\ normalized (snd (fold_left (word_step max_chars) ws st)).
Proof.
  induction ws as [|w ws IH]; intros st done P N F; simpl; auto.
  inversion F as [|? ? [Tw Sw] F']; subst.
  apply IH with (done := done ++ [w]); auto.
  - now apply word_step_packed.
  - now apply word_step_normalized with done.
Qed.

(** [_split_by_words] keeps the words of its text in order, and each chunk
    it returns is non-empty, is its own words joined by single spaces, and
    is within [max_chars] unless it is one word that is longer. *)
Theorem split_by_words_chunks (text : str) (max_chars : Z) :
  words_of (_split_by_words text max_chars) = split_ws text
  /\ Forall (fun c => c <> [] /\ normalized c
                      /\ (len c <= max_chars
                          \/ (max_chars < len c /\ single_word c)))
       (_split_by_words text max_chars).
Proof.
  destruct (split_by_words_spec text max_chars) as [W G]. split; auto.
  unfold _split_by_words in *.
  assert (P : packed max_chars
                (fold_left (word_step max_chars) (split_ws text) ([], []))
                ([] ++ split_ws text)).
  { apply fold_word_step_packed; [apply packed_start | apply split_ws_words]. }
  assert (N := @fold_word_step_normalized max_chars (split_ws text) ([], [])
                 [] (packed_start max_chars)
                 (conj (Forall_nil _) normalized_nil) (split_ws_words text)).
  destruct (fold_left (word_step max_chars) (split_ws text) ([], []))
    as [chunks current].
  destruct N as [NF NC]. destruct P as (_ & _ & C). cbn [fst snd] in *.
  assert (NS : Forall normalized (seal (chunks, current))).
  { unfold seal. destruct C as [C | C].
    - subst current. exact NF.
    - rewrite (good_strip C), (tidy_truthy (proj1 C)).
      apply Forall_app; split; auto. }
  rewrite Forall_forall in *. intros c I.
  destruct (G c I) as [T F]. repeat split; auto.
  now apply tidy_nonempty.
Qed.

Lemma tidy_join_space (ws : list str) :
  ws <> [] -> Forall (fun w => tidy w /\ single_word w) ws ->
  tidy (join_space ws).
Proof.
  induction ws as [|a ws IH]; intros H F; [contradiction|].
  inversion F as [|? ? [Ta _] F']; subst.
  destruct ws as [|b ws]; [exact Ta|].
  change (join_space (a :: b :: ws))
    with (a ++ " "%char :: join_space (b :: ws)).
  apply tidy_join; auto. apply IH; auto. discriminate.
Qed.

Lemma len_join_space_prefix (a b : list str) :
  len (join_space a) <= len (join_space (a ++ b)).
Proof.
  induction a as [|x a IH].
  - apply len_nonneg.
  - destruct a as [|y a].
    + destruct b as [|z b]; [simpl; lia|].
      change (join_space ([x] ++ z :: b))
        with (x ++ " "%char :: join_space (z :: b)).
      rewrite len_app, len_cons. change (join_space [x]) with x.
      pose proof (len_nonneg (join_space (z :: b))). lia.
    + change (join_space ((x :: y :: a) ++ b))
        with (x ++ " "%char :: join_space ((y :: a) ++ b)).
      change (join_space (x :: y :: a))
        with (x ++ " "%char :: join_space (y :: a)).
      rewrite !len_app, !len_cons. lia.
Qed.

Lemma fold_word_step_fits (max_chars : Z) (rest : list str) :
  forall pre,
    pre <> [] ->
    Forall (fun w => tidy w /\ single_word w) (pre ++ rest) ->
    len (join_space (pre ++ rest)) <= max_chars ->
    fold_left (word_step max_chars) rest ([], join_space pre)
    = ([], join_space (pre ++ rest)).
Proof.
  induction rest as [|w rest IH]; intros pre Hne F L.
  - now rewrite app_nil_r.
  - cbn [fold_left]. unfold word_step at 2.
    replace (pre ++ w :: rest) with ((pre ++ [w]) ++ rest) in *
      by (now rewrite <- app_assoc).
    pose proof (len_join_space_prefix (pre ++ [w]) rest) as M.
    rewrite join_space_snoc in M by assumption.
    rewrite len_app, len_cons in M.
    assert (O : (len (join_space pre) + len w + 1 >? max_chars) = false).
    { destruct (len (join_space pre) + len w + 1 >? max_chars) eqn:O; auto.
      apply gtb_true in O. lia. }
    rewrite O.
    assert (Fp : Forall (fun w => tidy w /\ single_word w) pre).
    { apply Forall_app in F. destruct F as [F _].
      apply Forall_app in F. apply F. }
    rewrite (tidy_truthy (tidy_join_space Hne Fp)).
    rewrite <- join_space_snoc by assumption.
    apply IH; auto. now destruct pre.
Qed.

(** When the words of the text, joined by single spaces, fit within
    [max_chars], [_split_by_words] returns that one normalised line. *)
Theorem split_by_words_fits (text : str) (max_chars : Z) :
  blank text = false ->
  len (join_space (split_ws text)) <= max_chars ->
  _split_by_words text max_chars = [join_space (split_ws text)].
Proof.
  intros B L. unfold _split_by_words.
  pose proof (split_ws_words text) as F.
  assert (Hne : split_ws text <> []).
  { intros E. apply no_words_blank in E. congruence. }
  destruct (split_ws text) as [|w rest]; [contradiction|]. clear Hne.
  cbn [fold_left]. unfold word_step at 2. cbn [truthy].
  destruct (len [] + len w + 1 >? max_chars) eqn:O.
  - apply gtb_true in O. change (len []) with 0 in O.
    destruct rest as [|v rest].
    + reflexivity.
    + exfalso. change (join_space (w :: v :: rest))
        with (w ++ " "%char :: join_space (v :: rest)) in L.
      rewrite len_app, len_cons in L.
      pose proof (len_nonneg (join_space (v :: rest))). lia.
  - change w with (join_space [w]) at 1.
    rewrite fold_word_step_fits; auto; try discriminate.
    cbn [app]. unfold seal.
    assert (T : tidy (join_space (w :: rest)))
      by (apply tidy_join_space; auto; discriminate).
    now rewrite (strip_tidy T), (tidy_truthy T).
Qed.

Lemma split_by_words_fits_witness :
  _split_by_words (s "  take   two tablets daily ") 30
  = [join_space (split_ws (s "  take   two tablets daily "))].
Proof. apply split_by_words_fits; [reflexivity | discriminate]. Defined.

(** ** Text without a sentence boundary *)

Lemma split_by_words_strip (text : str) (max_chars : Z) :
  _split_by_words (strip text) max_chars = _split_by_words text max_chars.
Proof. unfold _split_by_words. now rewrite split_ws_strip. Qed.

(** When the pattern finds no sentence boundary and the trimmed text is
    longer than [max_chars], the chunker returns what [_split_by_words]
    returns on the text. *)
Theorem chunk_text_one_sentence (text : str) (max_chars : Z) :
  re_split text = [text] ->
  max_chars < len (strip text) ->
  chunk_text text max_chars = Returns (_split_by_words text max_chars).
Proof.
  intros R L. unfold chunk_text.
  destruct (blank text) eqn:B.
  - pose proof (blank_no_words _ B) as W. apply blank_strip in B.
    rewrite B. cbn [truthy negb]. rewrite orb_true_r.
    unfold _split_by_words. rewrite W. reflexivity.
  - pose proof (blank_false_strip _ B) as T.
    rewrite (tidy_truthy T).
    assert (Tt : truthy text = true).
    { destruct text; [|reflexivity]. now apply tidy_nonempty in T. }
    rewrite Tt. cbn [negb orb].
    pose proof (strip_length text) as SL.
    assert (L1 : (len text <=? max_chars) = false) by (apply Z.leb_gt; lia).
    rewrite L1, R. cbn [for_sentences]. unfold sentence_step.
    rewrite (tidy_truthy T). cbn [negb].
    assert (G1 : (len [] + len (strip text) + 1 >? max_chars) = true)
      by (apply Z.gtb_lt; change (len []) with 0; lia).
    assert (G2 : (len (strip text) >? max_chars) = true)
      by (apply Z.gtb_lt; lia).
    rewrite G1, G2. cbn [truthy app].
    rewrite split_by_words_strip.
    destruct (split_by_words_spec text max_chars) as [W G].
    assert (Hne : _split_by_words text max_chars <> []).
    { intros E. rewrite E in W. cbn in W. symmetry in W.
      apply no_words_blank in W. congruence. }
    destruct (last_item_nonempty Hne) as [EL ER]. rewrite EL.
    unfold seal.
    assert (GL : good max_chars (last (_split_by_words text max_chars) [])).
    { rewrite Forall_forall in G. apply G. rewrite ER at 2.
      apply in_or_app. right. now left. }
    rewrite (good_strip GL), (tidy_truthy (proj1 GL)).
    now rewrite <- ER.
Qed.

Lemma chunk_text_one_sentence_witness :
  chunk_text (s "no capital follows. so no split happens here") 12
  = Returns
      (_split_by_words (s "no capital follows. so no split happens here") 12).
Proof. apply chunk_text_one_sentence; reflexivity. Defined.

(** ** The sentence pieces *)

Lemma removelast_cons_nonempty (A : Type) (x : A) (l : list A) :
  l <> [] -> removelast (x :: l) = x :: removelast l.
Proof. destruct l; [contradiction | reflexivity]. Qed.

Lemma ends_terminator_rev (c : ascii) (cur : str) :
  is_terminator c = true -> ends_terminator (rev (c :: cur)) = true.
Proof. intros H. unfold ends_terminator. now rewrite rev_involutive. Qed.

(** The scanner, in both of its modes: every piece after the first starts
    with a capital, and every piece before the last ends with one of
    [. ! ?]. *)
Lemma re_split_from_shape (t : str) :
  (forall prev cur,
      (prev = true -> exists c cur', cur = c :: cur'
                                     /\ is_terminator c = true) ->
      exists mid rest,
        re_split_from prev false cur t = (rev cur ++ mid) :: rest
        /\ Forall (fun p => starts_upper p = true) rest
        /\ Forall (fun p => ends_terminator p = true)
             (removelast ((rev cur ++ mid) :: rest)))
  /\ (forall prev,
         ws_then_upper t = true ->
         re_split_from prev true [] t <> []
         /\ Forall (fun p => starts_upper p = true)
              (re_split_from prev true [] t)
         /\ Forall (fun p => ends_terminator p = true)
              (removelast (re_split_from prev true [] t))).
Proof.
  induction t as [|c t [IH1 IH2]]; split.
  - intros prev cur _. exists [], []. simpl. rewrite app_nil_r. auto.
  - intros prev W. discriminate W.
  - intros prev cur P. cbn [re_split_from].
    destruct (prev && isspace c && ws_then_upper t) eqn:M.
    + apply andb_true_iff in M. destruct M as [M Wt].
      apply andb_true_iff in M. destruct M as [Hp Hc].
      destruct (IH2 false Wt) as (Ne & U & E).
      exists [], (re_split_from false true [] t). rewrite app_nil_r.
      split; [reflexivity|]. split; [exact U|].
      rewrite removelast_cons_nonempty by assumption.
      constructor; auto.
      destruct (P Hp) as (x & cur' & -> & Hx). now apply ends_terminator_rev.
    + destruct (IH1 (is_terminator c) (c :: cur)) as (mid & rest & E & U & T).
      { intros H. now exists c, cur. }
      exists (c :: mid), rest. simpl rev in E, T.
      rewrite <- app_assoc in E, T. simpl app in E, T. auto.
  - intros prev W. cbn [re_split_from ws_then_upper] in *.
    destruct (isspace c) eqn:Hc.
    + now apply IH2.
    + destruct (IH1 (is_terminator c) [c]) as (mid & rest & E & U & T).
      { intros H. now exists c, []. }
      rewrite E. split; [discriminate|]. split; [|exact T].
      constructor; [exact W | exact U].
Qed.

(** [re.split] returns at least one piece; every piece after the first
    starts with a capital letter, and every piece before the last ends with
    [.], [!] or [?]. *)
Theorem re_split_shape (text : str) :
  exists first rest,
    re_split text = first :: rest
    /\ Forall (fun p => starts_upper p = true) rest
    /\ Forall (fun p => ends_terminator p = true)
         (removelast (first :: rest)).
Proof.
  destruct (proj1 (re_split_from_shape text) false []) as (mid & rest & E & U & T).
  - discriminate.
  - exists ([] ++ mid), rest. auto.
Qed.

Lemma ws_then_upper_has_upper (t : str) :
  ws_then_upper t = true -> existsb is_upper t = true.
Proof.
  induction t as [|c t IH]; simpl; [discriminate|].
  destruct (isspace c).
  - intros H. rewrite (IH H). apply orb_true_r.
  - intros H. now rewrite H.
Qed.

Lemma re_split_from_unsplit (t : str) :
  forall prev cur,
    (prev = true -> ws_then_upper t = false) ->
    (forallb (fun c => negb (is_terminator c)) t = true
     \/ forallb (fun c => negb (is_upper c)) t = true) ->
    re_split_from prev false cur t = [rev cur ++ t].
Proof.
  induction t as [|c t IH]; intros prev cur P H; simpl.
  - now rewrite app_nil_r.
  - assert (M : prev && isspace c && ws_then_upper t = false).
    { destruct prev; auto. specialize (P eq_refl). simpl in P.
      destruct (isspace c); simpl; auto. }
    rewrite M. rewrite IH.
    + simpl. now rewrite <- app_assoc.
    + intros Hc. destruct H as [H | H]; simpl in H;
        apply andb_true_iff in H; destruct H as [H1 H2].
      * rewrite Hc in H1. discriminate.
      * destruct (ws_then_upper t) eqn:W; auto.
        apply ws_then_upper_has_upper in W.
        exfalso. clear - H2 W.
        induction t as [|x t IHt]; simpl in *; [discriminate|].
        apply andb_true_iff in H2. destruct H2 as [Hx H2].
        destruct (is_upper x); [discriminate|]. simpl in W. auto.
    + destruct H as [H | H]; simpl in H; apply andb_true_iff in H;
        destruct H as [_ H]; auto.
Qed.

(** A text with none of [. ! ?], or with no capital letter, is one
    sentence: the pattern never matches. *)
Theorem re_split_unsplit (text : str) :
  forallb (fun c => negb (is_terminator c)) text = true
  \/ forallb (fun c => negb (is_upper c)) text = true ->
  re_split text = [text].
Proof.
  intros H. unfold re_split.
  rewrite re_split_from_unsplit; auto. discriminate.
Qed.

Lemma re_split_unsplit_witness :
  re_split (s "e.g. the dose was raised. then it was lowered")
  = [s "e.g. the dose was raised. then it was lowered"].
Proof. apply re_split_unsplit. right. reflexivity. Defined.

End ChunkerMore.

(** * Further properties of the job orchestrator *)

Module OrchestratorMore.

Import Orchestrator OrchestratorFacts.
Open Scope string_scope.

(** ** What reaches the caller *)

Lemma outer_handler_runtime (e : exn) : exists m, outer_handler e = RuntimeError m.
Proof. destruct e; simpl; eauto. Qed.


(** Whatever the configuration and the service do, an exception that leaves
    [extract_text_from_s3] is a [RuntimeError]. *)
Theorem raises_only_runtime_error (cfg : config) (svc : service)
  (key : string) (e : exn) :
  snd (extract_text_from_s3 cfg svc key) = Some (Raises e) ->
  exists m, e = RuntimeError m.
Proof.
  unfold extract_text_from_s3.
  destruct (negb (textract_initialized cfg)).
  { simpl. intros H. injection H as <-. eauto. }
  destruct (S3_BUCKET cfg) as [[|c b]|];
    try (simpl; intros H; injection H as <-; eauto; fail).
  destruct (start_reply svc) as [job_id | e0].
  - destruct (poll_loop (replies svc) job_id 0) as [tr [[t | e1]|]];
      cbn [emit snd handled fst]; intros H; try discriminate H.
    injection H as <-. apply outer_handler_runtime.
  - cbn [emit snd handled fst raise]. intros H. injection H as <-.
    apply outer_handler_runtime.
Qed.

Lemma raises_only_runtime_error_witness :
  exists m, RuntimeError (unexpected ++ "connection reset") = RuntimeError m.
Proof.
  apply (@raises_only_runtime_error sample_config
           (answering [Raises (OtherError "connection reset")])
           "reports/scan.pdf").
  reflexivity.
Defined.

(** Without a Textract client, or without a bucket name, the function
    raises [RuntimeError] and calls nothing. *)
Theorem unconfigured_calls_nothing (cfg : config) (svc : service)
  (key : string) :
  textract_initialized cfg = false
  \/ S3_BUCKET cfg = None \/ S3_BUCKET cfg = Some "" ->
  exists m, extract_text_from_s3 cfg svc key = ([], Some (Raises (RuntimeError m))).
Proof.
  unfold extract_text_from_s3. intros [H | [H | H]].
  - rewrite H. eexists. reflexivity.
  - rewrite H. destruct (negb (textract_initialized cfg));
      eexists; reflexivity.
  - rewrite H. destruct (negb (textract_initialized cfg));
      eexists; reflexivity.
Qed.

Lemma unconfigured_calls_nothing_witness :
  exists m,
    extract_text_from_s3
      {| textract_initialized := true; S3_BUCKET := Some "" |}
      (answering [Returns (page [line "A"] None)]) "reports/scan.pdf"
    = ([], Some (Raises (RuntimeError m))).
Proof. apply unconfigured_calls_nothing. right. right. reflexivity. Defined.

(** ** What the loops do, and for how long *)

Lemma loop_events (rs : list (result detection)) (job_id : string) :
  (forall attempt,
      Forall (loop_event job_id) (fst (poll_loop rs job_id attempt)))
  /\ (forall attempt d text_lines,
         Forall (loop_event job_id)
           (fst (pagination_loop rs job_id attempt d text_lines))).
Proof.
  induction rs as [|r rs [IH1 IH2]]; split; intros.
  - rewrite poll_loop_unfold.
    destruct (max_attempts <=? attempt)%nat; constructor.
  - rewrite pagination_loop_unfold. destruct (NextToken d); constructor.
  - rewrite poll_loop_unfold.
    destruct (max_attempts <=? attempt)%nat; [constructor|].
    cbn [emit fst]. constructor; [reflexivity|].
    destruct r as [d | e].
    + destruct (JobStatus d =? "SUCCEEDED").
      { cbn [emit fst]. constructor; [exact I | apply IH2]. }
      destruct (JobStatus d =? "FAILED"); [constructor|].
      destruct (JobStatus d =? "IN_PROGRESS"); [|apply IH1].
      cbn [emit fst]. constructor; [reflexivity | apply IH1].
    + destruct e; try constructor. unfold on_client_error.
      destruct (attempt <? max_attempts - 1)%nat; [|constructor].
      cbn [emit fst]. constructor; [reflexivity | apply IH1].
  - rewrite pagination_loop_unfold. destruct (NextToken d); [|constructor].
    cbn [emit fst]. constructor; [reflexivity|].
    destruct r as [d' | e].
    + cbn [emit fst]. constructor; [exact I | apply IH2].
    + destruct e; try constructor. unfold on_client_error.
      destruct (attempt <? max_attempts - 1)%nat; [|constructor].
      cbn [emit fst]. constructor; [reflexivity | apply IH1].
Qed.

(** With a configured client and an accepted submission, the run starts the
    job once, on the configured bucket and the given key, and everything
    after that is a query for the job id the service returned, a sleep of
    five seconds, or the collection of lines. *)
Theorem run_shape (cfg : config) (svc : service) (bucket key job_id : string) :
  textract_initialized cfg = true ->
  S3_BUCKET cfg = Some bucket -> bucket <> "" ->
  start_reply svc = Returns job_id ->
  exists tr,
    fst (extract_text_from_s3 cfg svc key) = StartDetection bucket key :: tr
    /\ Forall (loop_event job_id) tr.
Proof.
  intros T B N S. rewrite (@extract_configured cfg svc key bucket job_id T B N S).
  exists (fst (poll_loop (replies svc) job_id 0)). split; [reflexivity|].
  apply (proj1 (loop_events (replies svc) job_id)).
Qed.

Lemma run_shape_witness :
  exists tr,
    fst (extract_text_from_s3 sample_config interrupted_pagination
           "reports/scan.pdf")
    = StartDetection "reports-bucket" "reports/scan.pdf" :: tr
    /\ Forall (loop_event "job-1") tr.
Proof.
  apply run_shape; [reflexivity | reflexivity | discriminate | reflexivity].
Defined.

Lemma sleep_seconds_bounded (rs : list (result detection)) :
  (forall job_id attempt,
      (attempt <= max_attempts)%nat ->
      (sleep_seconds (fst (poll_loop rs job_id attempt)) + 5 * attempt
       <= 5 * max_attempts)%nat)
  /\ (forall job_id attempt d text_lines,
         (attempt < max_attempts)%nat ->
         (sleep_seconds (fst (pagination_loop rs job_id attempt d text_lines))
          + 5 * attempt <= 5 * max_attempts)%nat).
Proof.
  induction rs as [|r rs [IH1 IH2]]; split; intros.
  - rewrite poll_loop_unfold.
    destruct (max_attempts <=? attempt)%nat; cbn [raise fst sleep_seconds]; unfold max_attempts in *; lia.
  - rewrite pagination_loop_unfold. destruct (NextToken d); cbn [raise fst sleep_seconds]; unfold max_attempts in *; lia.
  - rewrite poll_loop_unfold.
    destruct (max_attempts <=? attempt)%nat eqn:G; [cbn [raise fst sleep_seconds]; unfold max_attempts in *; lia|].
    apply Nat.leb_gt in G. cbn [emit fst sleep_seconds].
    destruct r as [d | e].
    + destruct (JobStatus d =? "SUCCEEDED").
      { cbn [emit fst sleep_seconds]. apply IH2; lia. }
      destruct (JobStatus d =? "FAILED"); [cbn [raise fst sleep_seconds]; unfold max_attempts in *; lia|].
      destruct (JobStatus d =? "IN_PROGRESS"); [|apply IH1; lia].
      cbn [emit fst sleep_seconds]. specialize (IH1 job_id (S attempt)). unfold max_attempts in *. lia.
    + destruct e; try (cbn [raise fst sleep_seconds]; unfold max_attempts in *; lia). unfold on_client_error.
      destruct (attempt <? max_attempts - 1)%nat eqn:L; [|cbn [raise fst sleep_seconds]; unfold max_attempts in *; lia].
      cbn [emit fst sleep_seconds]. specialize (IH1 job_id (S attempt)). unfold max_attempts in *. lia.
  - rewrite pagination_loop_unfold.
    destruct (NextToken d); [|cbn [raise fst sleep_seconds]; unfold max_attempts in *; lia]. cbn [emit fst sleep_seconds].
    destruct r as [d' | e].
    + cbn [emit fst sleep_seconds]. apply IH2; lia.
    + destruct e; try (cbn [raise fst sleep_seconds]; unfold max_attempts in *; lia). unfold on_client_error.
      destruct (attempt <? max_attempts - 1)%nat eqn:L; [|cbn [raise fst sleep_seconds]; unfold max_attempts in *; lia].
      cbn [emit fst sleep_seconds]. specialize (IH1 job_id (S attempt)). unfold max_attempts in *. lia.
Qed.

(** Whatever the service answers, a call sleeps at most [max_attempts]
    times and at most 300 seconds in all. *)
Theorem sleep_budget (cfg : config) (svc : service) (key : string) :
  (sleeps (fst (extract_text_from_s3 cfg svc key)) <= max_attempts)%nat
  /\ (sleep_seconds (fst (extract_text_from_s3 cfg svc key)) <= 300)%nat.
Proof.
  unfold extract_text_from_s3.
  destruct (negb (textract_initialized cfg)); [simpl; lia|].
  destruct (S3_BUCKET cfg) as [[|c b]|]; try (simpl; lia).
  destruct (start_reply svc) as [job_id | e]; [|simpl; lia].
  cbn [emit handled fst sleeps sleep_seconds]. split.
  - pose proof (proj1 (sleeps_bounded (replies svc)) job_id 0%nat). lia.
  - pose proof (proj1 (sleep_seconds_bounded (replies svc)) job_id 0%nat).
    unfold max_attempts in *. lia.
Qed.

(** When every status the service reports is [SUCCEEDED], [FAILED] or
    [IN_PROGRESS], a call polls the status at most [max_attempts] times. *)
Theorem poll_budget (cfg : config) (svc : service) (key : string) :
  forallb tested_status (replies svc) = true ->
  (polls (fst (extract_text_from_s3 cfg svc key)) <= max_attempts)%nat.
Proof.
  intros K. unfold extract_text_from_s3.
  destruct (negb (textract_initialized cfg)); [simpl; lia|].
  destruct (S3_BUCKET cfg) as [[|c b]|]; try (simpl; lia).
  destruct (start_reply svc) as [job_id | e]; [|simpl; lia].
  cbn [emit handled fst polls].
  pose proof (proj1 (polls_bounded _ K) job_id 0%nat). lia.
Qed.

Lemma poll_budget_witness :
  (polls (fst (extract_text_from_s3 sample_config interrupted_pagination
                 "reports/scan.pdf")) <= max_attempts)%nat.
Proof. apply poll_budget. reflexivity. Defined.

(** ** A job that never finishes *)

Lemma uses_attempt_pending (r : result detection) :
  uses_attempt r = true -> pending_reply r = true.
Proof.
  destruct r as [d | e]; simpl; auto.
  intros H. apply String.eqb_eq in H. rewrite H. reflexivity.
Qed.

Lemma all_use_attempts (rs : list (result detection)) :
  forallb uses_attempt rs = true ->
  forallb pending_reply rs = true /\ attempts_used rs = List.length rs.
Proof.
  induction rs as [|r rs IH]; simpl; auto.
  intros H. apply andb_true_iff in H. destruct H as [Hr H].
  destruct (IH H) as [P A]. rewrite Hr, A, (uses_attempt_pending _ Hr), P.
  auto.
Qed.

Lemma queries_after (tr : list event) (r : run) :
  queries (fst (after tr r)) = (queries tr ++ queries (fst r))%list.
Proof. apply queries_app. Qed.

(** When the first [max_attempts] replies are all [IN_PROGRESS] or
    [ClientError], the call ends after exactly [max_attempts] queries: it
    raises the timeout if the last of them is [IN_PROGRESS], and the
    status-query failure if it is a [ClientError]. *)
Theorem gives_up_after_max_attempts (cfg : config) (bucket key job_id : string)
  (pre : list (result detection)) (final : result detection)
  (rest : list (result detection)) :
  textract_initialized cfg = true ->
  S3_BUCKET cfg = Some bucket -> bucket <> "" ->
  S (List.length pre) = max_attempts ->
  forallb uses_attempt (pre ++ [final]) = true ->
  let r := extract_text_from_s3 cfg
             {| start_reply := Returns job_id;
                replies := (pre ++ final :: rest)%list |}
             key in
  List.length (queries (fst r)) = max_attempts
  /\ snd r
     = Some (Raises (RuntimeError
                       match final with
                       | Returns _ => timeout_message
                       | Raises e => polling_message (str_of_exn e)
                       end)).
Proof.
  intros T B N Len U r. subst r.
  rewrite forallb_app in U. apply andb_true_iff in U. destruct U as [Up Ul].
  simpl in Ul. rewrite andb_true_r in Ul.
  destruct (all_use_attempts _ Up) as [P A].
  assert (A59 : attempts_used pre = (max_attempts - 1)%nat)
    by (rewrite A; unfold max_attempts in *; simpl; lia).
  match goal with
  | |- context [extract_text_from_s3 _ ?svc _] =>
      rewrite (@extract_configured cfg svc key bucket job_id T B N eq_refl)
  end.
  cbn [replies].
  rewrite (@poll_loop_pending pre _ job_id 0 P)
    by (rewrite A59; unfold max_attempts; simpl; lia).
  cbn [Nat.add]. rewrite A59.
  rewrite poll_loop_unfold. cbn [max_attempts Nat.sub Nat.leb].
  destruct final as [d | e].
  - simpl in Ul. apply String.eqb_eq in Ul. rewrite Ul.
    change ("IN_PROGRESS" =? "SUCCEEDED") with false.
    change ("IN_PROGRESS" =? "FAILED") with false.
    change ("IN_PROGRESS" =? "IN_PROGRESS") with true. cbn iota.
    rewrite poll_loop_unfold. cbn [max_attempts Nat.leb].
    split; [|reflexivity].
    cbn [emit fst handled queries]. rewrite queries_after, queries_pending.
    cbn [emit fst raise queries]. rewrite length_app, length_map.
    simpl List.length. unfold max_attempts in *. lia.
  - destruct e; try discriminate Ul. unfold on_client_error.
    cbn [max_attempts Nat.sub Nat.ltb Nat.leb].
    split; [|reflexivity].
    cbn [emit fst handled queries]. rewrite queries_after, queries_pending.
    cbn [emit fst raise queries]. rewrite length_app, length_map.
    simpl List.length. unfold max_attempts in *. lia.
Qed.

Lemma gives_up_after_max_attempts_witness :
  let r := extract_text_from_s3 sample_config
             {| start_reply := Returns "job-1";
                replies :=
                  (repeat (Returns (status_only "IN_PROGRESS")) 59
                     ++ Raises (ClientError "throttled")
                     :: [Returns (page [line "A"] None)])%list |}
             "reports/scan.pdf" in
  List.length (queries (fst r)) = max_attempts
  /\ snd r
     = Some (Raises (RuntimeError
                       match Raises (ClientError "throttled")
                             : result detection with
                       | Returns _ => timeout_message
                       | Raises e => polling_message (str_of_exn e)
                       end)).
Proof.
  apply (@gives_up_after_max_attempts sample_config "reports-bucket");
    [reflexivity | reflexivity | discriminate | reflexivity | reflexivity].
Defined.


(** ** Errors that are not retried *)

(** Only [ClientError] is retried.  Any other exception from a status
    query ends the call at once, whatever attempts remain, and reaches the
    caller as the "unexpected error" [RuntimeError]; the same holds for any
    other exception from the submission. *)
Theorem other_errors_not_retried (cfg : config) (bucket key : string)
  (e : exn) :
  textract_initialized cfg = true ->
  S3_BUCKET cfg = Some bucket -> bucket <> "" ->
  class_of e <> ClientError_class ->
  (forall rs,
      extract_text_from_s3 cfg {| start_reply := Raises e; replies := rs |} key
      = ([StartDetection bucket key],
         Some (Raises (RuntimeError (unexpected ++ str_of_exn e)))))
  /\ (forall job_id pre rest,
         forallb pending_reply pre = true ->
         (attempts_used pre < max_attempts)%nat ->
         let r := extract_text_from_s3 cfg
                    {| start_reply := Returns job_id;
                       replies := (pre ++ Raises e :: rest)%list |} key in
         snd r = Some (Raises (RuntimeError (unexpected ++ str_of_exn e)))
         /\ List.length (queries (fst r)) = S (List.length pre)).
Proof.
  intros T B N C. split.
  - intros rs. unfold extract_text_from_s3. rewrite T, B. cbn [negb].
    destruct bucket; [contradiction|].
    destruct e; try reflexivity. now contradiction C.
  - intros job_id pre rest P A r. subst r.
    match goal with
    | |- context [extract_text_from_s3 _ ?svc _] =>
        rewrite (@extract_configured cfg svc key bucket job_id T B N eq_refl)
    end.
    cbn [replies]. rewrite (@poll_loop_pending pre _ job_id 0 P A).
    rewrite poll_loop_unfold.
    assert (G : (max_attempts <=? 0 + attempts_used pre)%nat = false)
      by (apply Nat.leb_gt; lia).
    rewrite G. split.
    + destruct e; try reflexivity. now contradiction C.
    + cbn [emit fst handled queries]. rewrite queries_after, queries_pending.
      rewrite length_app, length_map.
      destruct e; cbn [emit fst raise queries List.length]; try lia.
      now contradiction C.
Qed.

Lemma other_errors_not_retried_witness :
  extract_text_from_s3 sample_config
    {| start_reply := Raises (OtherError "endpoint unreachable");
       replies := [] |} "reports/scan.pdf"
  = ([StartDetection "reports-bucket" "reports/scan.pdf"],
     Some (Raises (RuntimeError
                     (unexpected
                        ++ str_of_exn (OtherError "endpoint unreachable")))))
  /\ (let r := extract_text_from_s3 sample_config
                 {| start_reply := Returns "job-1";
                    replies :=
                      ([Returns (status_only "IN_PROGRESS")]
                         ++ Raises (OtherError "endpoint unreachable")
                         :: [Returns (page [line "A"] None)])%list |}
                 "reports/scan.pdf" in
      snd r = Some (Raises (RuntimeError
                              (unexpected
                                 ++ str_of_exn
                                      (OtherError "endpoint unreachable"))))
      /\ List.length (queries (fst r))
         = S (List.length [Returns (status_only "IN_PROGRESS")])).
Proof.
  destruct (@other_errors_not_retried sample_config "reports-bucket"
              "reports/scan.pdf" (OtherError "endpoint unreachable")
              eq_refl eq_refl) as [H1 H2].
  - discriminate.
  - discriminate.
  - split.
    + apply H1.
    + apply H2; [reflexivity | unfold max_attempts; simpl; lia].
Defined.

(** ** A transient error in the middle of pagination *)

Lemma pagination_interrupted (mids : list detection) :
  forall (rest : list (result detection)) (job_id : string) (attempt : nat)
         (d : detection) (text_lines : list string) (e : string),
    Forall (fun p => NextToken p <> None) (d :: mids) ->
    snd (pagination_loop
           (map Returns mids ++ Raises (ClientError e) :: rest)%list
           job_id attempt d text_lines)
    = snd (on_client_error attempt e (poll_loop rest job_id (S attempt))).
Proof.
  induction mids as [|p ps IH]; intros rest job_id attempt d text_lines e F;
    rewrite pagination_loop_unfold; inversion F as [|? ? Hd F']; subst;
    destruct (NextToken d); try contradiction; cbn [map app emit snd].
  - reflexivity.
  - now apply IH.
Qed.

(** When a [ClientError] interrupts the pagination of a [SUCCEEDED] job,
    the pages fetched before it leave no mark on the outcome: the call ends
    exactly as if the error had answered the status poll itself. *)
Theorem interrupted_pagination_restarts (cfg : config)
  (bucket key job_id : string) (pre : list (result detection))
  (first : detection) (mids : list detection) (e : string)
  (rest : list (result detection)) :
  textract_initialized cfg = true ->
  S3_BUCKET cfg = Some bucket -> bucket <> "" ->
  forallb pending_reply pre = true ->
  (attempts_used pre < max_attempts)%nat ->
  JobStatus first = "SUCCEEDED" ->
  Forall (fun p => NextToken p <> None) (first :: mids) ->
  snd (extract_text_from_s3 cfg
         {| start_reply := Returns job_id;
            replies := (pre ++ (Returns first :: map Returns mids
                                  ++ Raises (ClientError e) :: rest))%list |}
         key)
  = snd (extract_text_from_s3 cfg
           {| start_reply := Returns job_id;
              replies := (pre ++ Raises (ClientError e) :: rest)%list |}
           key).
Proof.
  intros T B N P A S F.
  rewrite !(@extract_after_pending cfg bucket key job_id pre _ T B N P A).
  rewrite !(poll_loop_unfold (_ :: _)).
  assert (G : (max_attempts <=? attempts_used pre)%nat = false)
    by (apply Nat.leb_gt; lia).
  rewrite G, S. change ("SUCCEEDED" =? "SUCCEEDED") with true. cbn iota.
  cbn [emit snd]. now rewrite pagination_interrupted.
Qed.

Lemma interrupted_pagination_restarts_witness :
  snd (extract_text_from_s3 sample_config
         {| start_reply := Returns "job-1";
            replies :=
              ([Returns (status_only "IN_PROGRESS")]
                 ++ (Returns (page [line "A"] (Some "t1"))
                       :: map Returns [page [line "B"] (Some "t2")]
                       ++ Raises (ClientError "throttled")
                       :: [Returns (page [line "Z"] None)]))%list |}
         "reports/scan.pdf")
  = snd (extract_text_from_s3 sample_config
           {| start_reply := Returns "job-1";
              replies :=
                ([Returns (status_only "IN_PROGRESS")]
                   ++ Raises (ClientError "throttled")
                   :: [Returns (page [line "Z"] None)])%list |}
           "reports/scan.pdf").
Proof.
  apply (@interrupted_pagination_restarts sample_config "reports-bucket").
  - reflexivity.
  - reflexivity.
  - discriminate.
  - reflexivity.
  - unfold max_attempts; simpl; lia.
  - reflexivity.
  - repeat constructor; discriminate.
Defined.

End OrchestratorMore.

(** * Properties of the uploader *)

Module UploaderFacts.

Import Uploader.
Open Scope string_scope.

(** ** Content types *)

Lemma lower_char_idempotent (c : ascii) :
  lower_char (lower_char c) = lower_char c.
Proof.
  destruct c as [b0 b1 b2 b3 b4 b5 b6 b7].
  destruct b0, b1, b2, b3, b4, b5, b6, b7; reflexivity.
Qed.

Lemma lower_idempotent (t : string) : lower (lower t) = lower t.
Proof.
  induction t as [|c t IH]; simpl; auto.
  now rewrite lower_char_idempotent, IH.
Qed.

(** The content type does not depend on the case of the extension. *)
Theorem content_type_ignores_case (ext : string) :
  _get_content_type (lower ext) = _get_content_type ext.
Proof. unfold _get_content_type. now rewrite lower_idempotent. Qed.

Ltac decide_key E :=
  match goal with
  | |- context [?k =? ?x] =>
      destruct (k =? x) eqn:E;
      [apply String.eqb_eq in E | apply String.eqb_neq in E]
  end.

(** Which extension gives which content type, and only that one: the
    lowercased extension decides, and everything outside the six known
    extensions is an octet stream. *)
Theorem content_type_table (ext : string) :
  let ct := _get_content_type ext in
  let k := lower ext in
  (ct = "application/pdf" <-> k = "pdf")
  /\ (ct = "image/png" <-> k = "png")
  /\ (ct = "image/jpeg" <-> k = "jpg" \/ k = "jpeg")
  /\ (ct = "image/tiff" <-> k = "tiff" \/ k = "tif")
  /\ (ct = "application/octet-stream" <->
      k <> "pdf" /\ k <> "png" /\ k <> "jpg" /\ k <> "jpeg"
      /\ k <> "tiff" /\ k <> "tif").
Proof.
  intros ct k. subst ct. unfold _get_content_type. fold k.
  generalize k. clear k ext. intros k.
  unfold content_types. cbn [dict_get].
  decide_key E1; [subst k; repeat split; intros; 
                  try discriminate; try reflexivity; try tauto;
                  intuition discriminate|].
  decide_key E2; [subst k; repeat split; intros;
                  try discriminate; try reflexivity; try tauto;
                  intuition discriminate|].
  decide_key E3; [subst k; repeat split; intros;
                  try discriminate; try reflexivity; try tauto;
                  intuition discriminate|].
  decide_key E4; [subst k; repeat split; intros;
                  try discriminate; try reflexivity; try tauto;
                  intuition discriminate|].
  decide_key E5; [subst k; repeat split; intros;
                  try discriminate; try reflexivity; try tauto;
                  intuition discriminate|].
  decide_key E6; [subst k; repeat split; intros;
                  try discriminate; try reflexivity; try tauto;
                  intuition discriminate|].
  repeat split; intros; try discriminate; try congruence;
    intuition congruence.
Qed.

(** ** The extension of a file name *)

Lemma split_on_nonempty (sep : ascii) (t : string) : split_on sep t <> [].
Proof.
  induction t as [|c t IH]; simpl; [discriminate|].
  destruct (Ascii.eqb c sep); [discriminate|].
  destruct (split_on sep t); discriminate.
Qed.

(** Splitting distributes over a separator. *)
Lemma split_on_app (sep : ascii) (a b : string) :
  split_on sep (a ++ String sep b)
  = (split_on sep a ++ split_on sep b)%list.
Proof.
  induction a as [|c a IH]; simpl.
  - now rewrite Ascii.eqb_refl.
  - destruct (Ascii.eqb c sep); rewrite IH; [reflexivity|].
    pose proof (split_on_nonempty sep a).
    destruct (split_on sep a); [contradiction | reflexivity].
Qed.

Lemma split_on_absent (sep : ascii) (t : string) :
  contains sep t = false -> split_on sep t = [t].
Proof.
  induction t as [|c t IH]; simpl; auto.
  intros H. apply orb_false_iff in H. destruct H as [Hc H].
  now rewrite Hc, (IH H).
Qed.

Lemma contains_app (sep : ascii) (a b : string) :
  contains sep (a ++ String sep b) = true.
Proof.
  induction a as [|c a IH]; simpl.
  - now rewrite Ascii.eqb_refl.
  - rewrite IH. apply orb_true_r.
Qed.

(** The extension is what follows the last dot, [bin] when there is no dot;
    computing it never raises. *)
Lemma file_extension_total (filename : string) :
  exists ext, file_extension_of filename = Returns ext.
Proof.
  unfold file_extension_of. destruct (contains "." filename); eauto.
  pose proof (split_on_nonempty "." filename).
  unfold last_of. destruct (split_on "." filename); [contradiction | eauto].
Qed.

Lemma file_extension_after_last_dot (base ext : string) :
  contains "." ext = false ->
  file_extension_of (base ++ String "." ext) = Returns ext.
Proof.
  intros H. unfold file_extension_of.
  rewrite contains_app, split_on_app, (split_on_absent _ _ H).
  unfold last_of. rewrite last_last.
  destruct (split_on "." base ++ [ext])%list eqn:E; [|reflexivity].
  now apply app_eq_nil in E.
Qed.

(** ** [upload_to_s3] *)

(** The content type sent to S3 is decided by what follows the last dot of
    the file name; a name without a dot is sent as an octet stream. *)
Theorem upload_content_type (cfg : config) (bucket unique_id : string)
  (reply : put_reply) (file_bytes : string) :
  s3_initialized cfg = true ->
  S3_BUCKET cfg = Some bucket -> bucket <> "" ->
  (forall base ext,
      contains "." ext = false ->
      map ContentType
        (fst (upload_to_s3 cfg unique_id reply file_bytes
                (base ++ String "." ext)))
      = [_get_content_type ext])
  /\ (forall filename,
         contains "." filename = false ->
         map ContentType
           (fst (upload_to_s3 cfg unique_id reply file_bytes filename))
         = ["application/octet-stream"]).
Proof.
  intros I B N. split.
  - intros base ext H. unfold upload_to_s3. rewrite I, B. cbn [negb].
    destruct bucket; [contradiction|].
    now rewrite (@file_extension_after_last_dot base ext H).
  - intros filename H. unfold upload_to_s3. rewrite I, B. cbn [negb].
    destruct bucket; [contradiction|].
    unfold file_extension_of. now rewrite H.
Qed.

Lemma upload_content_type_witness :
  map ContentType
    (fst (upload_to_s3 {| s3_initialized := true; S3_BUCKET := Some "b" |}
            "7f3c" Stored "%PDF" ("lab.results.2024" ++ String "." "PDF")))
  = [_get_content_type "PDF"]
  /\ map ContentType
       (fst (upload_to_s3 {| s3_initialized := true; S3_BUCKET := Some "b" |}
               "7f3c" Stored "%PDF" "README"))
     = ["application/octet-stream"].
Proof.
  destruct (@upload_content_type
              {| s3_initialized := true; S3_BUCKET := Some "b" |} "b" "7f3c"
              Stored "%PDF" eq_refl eq_refl) as [H1 H2].
  - discriminate.
  - split; [apply H1 | apply H2]; reflexivity.
Defined.

(** With a configured client, every call sends exactly one [put_object],
    to the configured bucket, with the given bytes, under the key
    [reports/<unique_id>_<filename>]; the function returns a key exactly
    when the object was stored, and it is that same key. *)
Theorem upload_stores_under_returned_key (cfg : config)
  (bucket unique_id : string) (reply : put_reply)
  (file_bytes filename : string) :
  s3_initialized cfg = true ->
  S3_BUCKET cfg = Some bucket -> bucket <> "" ->
  let r := upload_to_s3 cfg unique_id reply file_bytes filename in
  map (fun q => (Bucket q, Key q, Body q)) (fst r)
  = [(bucket, object_key unique_id filename, file_bytes)]
  /\ (forall key,
         snd r = Returns key <->
         reply = Stored /\ key = object_key unique_id filename).
Proof.
  intros I B N r. subst r. unfold upload_to_s3. rewrite I, B. cbn [negb].
  destruct bucket; [contradiction|].
  destruct (file_extension_total filename) as [ext E]. rewrite E.
  split; [reflexivity|]. intros key. cbn [snd].
  destruct reply as [| |e]; split.
  - intros H. injection H as <-. auto.
  - intros [_ ->]. reflexivity.
  - discriminate.
  - intros [H _]. discriminate H.
  - discriminate.
  - intros [H _]. discriminate H.
Qed.

Lemma upload_stores_under_returned_key_witness :
  let r := upload_to_s3 {| s3_initialized := true; S3_BUCKET := Some "b" |}
             "7f3c" (Failed (ClientError "AccessDenied")) "%PDF" "scan.pdf" in
  map (fun q => (Bucket q, Key q, Body q)) (fst r)
  = [("b", object_key "7f3c" "scan.pdf", "%PDF")]
  /\ (forall key,
         snd r = Returns key <->
         Failed (ClientError "AccessDenied") = Stored
         /\ key = object_key "7f3c" "scan.pdf").
Proof.
  apply (@upload_stores_under_returned_key
           {| s3_initialized := true; S3_BUCKET := Some "b" |} "b");
    [reflexivity | reflexivity | discriminate].
Defined.

Lemma upload_handler_runtime (e : exn) :
  exists m, upload_handler e = RuntimeError m.
Proof. destruct e; simpl; eauto. Qed.

Lemma upload_raise_runtime (cfg : config) (unique_id : string)
  (reply : put_reply) (file_bytes filename : string) (e : exn) :
  snd (upload_to_s3 cfg unique_id reply file_bytes filename) = Raises e ->
  exists m, e = RuntimeError m.
Proof.
  unfold upload_to_s3.
  destruct (negb (s3_initialized cfg));
    [cbn [snd]; intros H; injection H as <-; eauto|].
  destruct (S3_BUCKET cfg) as [[|c b]|];
    try (cbn [snd]; intros H; injection H as <-; eauto; fail).
  destruct (file_extension_total filename) as [ext E]. rewrite E.
  cbn [snd]. destruct reply as [| |e0]; intros H; try discriminate H;
    injection H as <-; eauto using upload_handler_runtime.
Qed.

Lemma upload_return_key (cfg : config) (unique_id : string)
  (reply : put_reply) (file_bytes filename key : string) :
  snd (upload_to_s3 cfg unique_id reply file_bytes filename) = Returns key ->
  reply = Stored /\ key = object_key unique_id filename.
Proof.
  unfold upload_to_s3.
  destruct (negb (s3_initialized cfg)); [discriminate|].
  destruct (S3_BUCKET cfg) as [[|c b]|]; try discriminate.
  destruct (file_extension_total filename) as [ext E]. rewrite E.
  cbn [snd]. destruct reply; try discriminate.
  intros H. injection H as <-. auto.
Qed.

(** Every failure of [upload_to_s3] reaches the caller as a
    [RuntimeError], whatever [put_object] raised; and without a client or
    a bucket name nothing is sent to S3. *)
Theorem upload_failures (cfg : config) (unique_id : string)
  (reply : put_reply) (file_bytes filename : string) :
  let r := upload_to_s3 cfg unique_id reply file_bytes filename in
  (forall e, snd r = Raises e -> exists m, e = RuntimeError m)
  /\ (s3_initialized cfg = false
      \/ S3_BUCKET cfg = None \/ S3_BUCKET cfg = Some "" ->
      fst r = [] /\ exists m, snd r = Raises (RuntimeError m)).
Proof.
  intros r. subst r. split.
  - intros e. apply upload_raise_runtime.
  - unfold upload_to_s3. intros [H | [H | H]].
    + rewrite H. cbn [negb fst snd]. eauto.
    + rewrite H. destruct (negb (s3_initialized cfg)); cbn [fst snd]; eauto.
    + rewrite H. destruct (negb (s3_initialized cfg)); cbn [fst snd]; eauto.
Qed.

Lemma upload_failures_witness :
  (exists m, upload_handler (OtherError "socket closed") = RuntimeError m)
  /\ fst (upload_to_s3 {| s3_initialized := false; S3_BUCKET := Some "b" |}
            "7f3c" Stored "%PDF" "scan.pdf") = [].
Proof.
  split.
  - apply (proj1 (upload_failures
                    {| s3_initialized := true; S3_BUCKET := Some "b" |}
                    "7f3c" (Failed (OtherError "socket closed")) "%PDF"
                    "scan.pdf")).
    reflexivity.
  - apply (proj2 (upload_failures
                    {| s3_initialized := false; S3_BUCKET := Some "b" |}
                    "7f3c" Stored "%PDF" "scan.pdf")).
    left. reflexivity.
Defined.

(** ** Keys *)

Lemma append_same_length (a b c d : string) :
  String.length a = String.length b ->
  a ++ c = b ++ d -> a = b /\ c = d.
Proof.
  revert b; induction a as [|x a IH]; intros [|y b] L H; simpl in *;
    try discriminate; auto.
  injection L as L. injection H as -> H.
  destruct (IH b L H) as [-> ->]. auto.
Qed.

(** Two uploads get the same key only if they have the same identifier and
    the same file name, given that identifiers have one length (as the
    text form of a UUID has). *)
Theorem object_key_injective (id1 id2 name1 name2 : string) :
  String.length id1 = String.length id2 ->
  object_key id1 name1 = object_key id2 name2 ->
  id1 = id2 /\ name1 = name2.
Proof.
  intros L H. unfold object_key in H.
  apply (@append_same_length "reports/" "reports/") in H; [|reflexivity].
  destruct H as [_ H].
  apply append_same_length in H; [|exact L].
  destruct H as [-> H]. split; auto.
  apply (@append_same_length "_" "_") in H; [|reflexivity]. apply H.
Qed.

Lemma object_key_injective_witness :
  "7f3c" = "7f3c" /\ "scan.pdf" = "scan.pdf".
Proof.
  apply object_key_injective; reflexivity.
Defined.

End UploaderFacts.

(** * Properties of the request handler *)

Module EndpointFacts.

Import Endpoint.
Open Scope string_scope.

(** A request is refused with [HTTPException] only with status 400, only
    for a missing file name or an empty body, and before anything was sent
    to S3, to Textract or to the summarizer. *)
Theorem refused_before_any_call (ucfg : Uploader.config)
  (ocfg : Orchestrator.config) (unique_id : string)
  (put : Uploader.put_reply) (svc : Orchestrator.service)
  (summarize_text : string -> result string)
  (filename : option string) (read : result string)
  (status : nat) (detail : string) :
  let r := process_file ucfg ocfg unique_id put svc summarize_text filename
             read in
  snd r = Some (HTTPException status detail) ->
  status = 400
  /\ fst r = nothing
  /\ (filename = None \/ filename = Some "" \/ read = Returns "").
Proof.
  intros r. subst r. unfold process_file.
  destruct filename as [[|c name]|];
    try (cbn [fst snd]; intros H; injection H as <- <-; auto; fail).
  destruct read as [[|b bytes]|e];
    try (cbn [fst snd]; intros H; injection H as <- <-; auto 6; fail).
  - destruct (snd (Uploader.upload_to_s3 _ _ _ _ _)) as [k | e].
    + destruct (snd (Orchestrator.extract_text_from_s3 _ _ _))
        as [[raw | e]|]; cbn [snd].
      * destruct (summarize_text raw); discriminate.
      * destruct e; discriminate.
      * discriminate.
    + destruct e; discriminate.
  - discriminate.
Qed.

Lemma refused_before_any_call_witness :
  400 = 400
  /\ fst (process_file
            {| Uploader.s3_initialized := true;
               Uploader.S3_BUCKET := Some "reports-bucket" |}
            Orchestrator.sample_config "7f3c" Uploader.Stored
            (Orchestrator.answering []) (fun t => Returns t)
            (Some "scan.pdf") (Returns "")) = nothing
  /\ (Some "scan.pdf" = None \/ Some "scan.pdf" = Some ""
      \/ Returns "" = Returns "").
Proof.
  apply (@refused_before_any_call
           {| Uploader.s3_initialized := true;
              Uploader.S3_BUCKET := Some "reports-bucket" |}
           Orchestrator.sample_config "7f3c" Uploader.Stored
           (Orchestrator.answering []) (fun t => Returns t)
           (Some "scan.pdf") (Returns "") 400 "Empty file provided").
  reflexivity.
Defined.

Lemma extract_returned_started (cfg : Orchestrator.config)
  (svc : Orchestrator.service) (key raw : string) :
  snd (Orchestrator.extract_text_from_s3 cfg svc key) = Some (Returns raw) ->
  exists bucket tr,
    fst (Orchestrator.extract_text_from_s3 cfg svc key)
    = Orchestrator.StartDetection bucket key :: tr.
Proof.
  unfold Orchestrator.extract_text_from_s3.
  destruct (negb (Orchestrator.textract_initialized cfg)); [discriminate|].
  destruct (Orchestrator.S3_BUCKET cfg) as [[|c b]|]; try discriminate.
  intros _. eexists. eexists. reflexivity.
Qed.

Lemma upload_returned_put (cfg : Uploader.config) (unique_id : string)
  (reply : Uploader.put_reply) (file_bytes filename key : string) :
  snd (Uploader.upload_to_s3 cfg unique_id reply file_bytes filename)
  = Returns key ->
  map (fun q => (Uploader.Key q, Uploader.Body q))
    (fst (Uploader.upload_to_s3 cfg unique_id reply file_bytes filename))
  = [(Uploader.object_key unique_id filename, file_bytes)].
Proof.
  unfold Uploader.upload_to_s3.
  destruct (negb (Uploader.s3_initialized cfg)); [discriminate|].
  destruct (Uploader.S3_BUCKET cfg) as [[|c b]|]; try discriminate.
  destruct (UploaderFacts.file_extension_total filename) as [ext E].
  rewrite E. reflexivity.
Qed.

(** An answer with the two texts means that the file was stored under the
    key [reports/<unique_id>_<name>], that the one Textract job of the
    request was started on that very key and returned the text, and that
    the one summary asked for is the summarizer's answer on that text. *)
Theorem success_chain (ucfg : Uploader.config)
  (ocfg : Orchestrator.config) (unique_id : string)
  (put : Uploader.put_reply) (svc : Orchestrator.service)
  (summarize_text : string -> result string)
  (filename : option string) (read : result string)
  (raw_text summary : string) :
  let r := process_file ucfg ocfg unique_id put svc summarize_text filename
             read in
  snd r = Some (Success raw_text summary) ->
  exists name file_bytes,
    filename = Some name /\ name <> ""
    /\ read = Returns file_bytes /\ file_bytes <> ""
    /\ put = Uploader.Stored
    /\ snd (Uploader.upload_to_s3 ucfg unique_id put file_bytes name)
       = Returns (Uploader.object_key unique_id name)
    /\ map (fun q => (Uploader.Key q, Uploader.Body q)) (puts (fst r))
       = [(Uploader.object_key unique_id name, file_bytes)]
    /\ (exists bucket tr,
           ocr (fst r)
           = Orchestrator.StartDetection bucket
               (Uploader.object_key unique_id name) :: tr
           /\ Forall (fun ev =>
                        match ev with
                        | Orchestrator.StartDetection _ _ => False
                        | _ => True
                        end) tr)
    /\ (ocr (fst r),
        Some (Returns raw_text : result string))
       = Orchestrator.extract_text_from_s3 ocfg svc
           (Uploader.object_key unique_id name)
    /\ summarized (fst r) = [raw_text]
    /\ summarize_text raw_text = Returns summary.
Proof.
  intros r. subst r. unfold process_file.
  destruct filename as [[|c name]|]; try discriminate.
  destruct read as [[|b bytes]|e]; try discriminate.
  destruct (snd (Uploader.upload_to_s3 ucfg unique_id put (String b bytes)
                   (String c name))) as [k | e] eqn:U.
  2:{ destruct e; discriminate. }
  pose proof (upload_returned_put _ _ _ _ _ U) as PU.
  destruct (UploaderFacts.upload_return_key _ _ _ _ _ U) as [-> ->].
  destruct (snd (Orchestrator.extract_text_from_s3 ocfg svc
                   (Uploader.object_key unique_id (String c name))))
    as [[raw | e]|] eqn:X; cbn [snd fst].
  - destruct (summarize_text raw) as [sm | e] eqn:S; try discriminate.
    intros H. injection H as <- <-.
    exists (String c name), (String b bytes).
    cbn [puts ocr summarized].
    split; [reflexivity|]. split; [discriminate|].
    split; [reflexivity|]. split; [discriminate|].
    split; [reflexivity|]. split; [exact U|]. split; [exact PU|].
    split; [|split; [|split; [reflexivity | exact S]]].
    + destruct (extract_returned_started _ _ _ X) as (bucket & tr & E).
      exists bucket, tr. split; [exact E|].
      unfold Orchestrator.extract_text_from_s3 in E.
      destruct (negb (Orchestrator.textract_initialized ocfg));
        [discriminate E|].
      destruct (Orchestrator.S3_BUCKET ocfg) as [[|c0 b0]|];
        try discriminate E.
      cbn [Orchestrator.emit Orchestrator.handled fst] in E.
      injection E as _ <-.
      destruct (Orchestrator.start_reply svc) as [job_id | e0];
        [|constructor].
      eapply Forall_impl;
        [|apply (proj1 (OrchestratorMore.loop_events
                          (Orchestrator.replies svc) job_id))].
      intros ev. destruct ev; simpl; auto.
    + rewrite <- X.
      now destruct (Orchestrator.extract_text_from_s3 ocfg svc
                      (Uploader.object_key unique_id (String c name))).
  - destruct e; discriminate.
  - discriminate.
Qed.

Lemma success_chain_witness :
  let r := process_file
             {| Uploader.s3_initialized := true;
                Uploader.S3_BUCKET := Some "reports-bucket" |}
             Orchestrator.sample_config "7f3c" Uploader.Stored
             (Orchestrator.answering
                [Returns (Orchestrator.page [Orchestrator.line "Hb 13.2"]
                            None)])
             (fun t => Returns ("Summary: " ++ t))
             (Some "scan.pdf") (Returns "%PDF") in
  ocr (fst r)
  = [Orchestrator.StartDetection "reports-bucket" "reports/7f3c_scan.pdf";
     Orchestrator.GetDetection "job-1" None;
     Orchestrator.Collected ["Hb 13.2"]]
  /\ exists name file_bytes,
       Some "scan.pdf" = Some name /\ name <> ""
       /\ Returns "%PDF" = Returns file_bytes /\ file_bytes <> ""
       /\ Uploader.Stored = Uploader.Stored
       /\ snd (Uploader.upload_to_s3
                 {| Uploader.s3_initialized := true;
                    Uploader.S3_BUCKET := Some "reports-bucket" |}
                 "7f3c" Uploader.Stored file_bytes name)
          = Returns (Uploader.object_key "7f3c" name)
       /\ map (fun q => (Uploader.Key q, Uploader.Body q)) (puts (fst r))
          = [(Uploader.object_key "7f3c" name, file_bytes)]
       /\ (exists bucket tr,
              ocr (fst r)
              = Orchestrator.StartDetection bucket
                  (Uploader.object_key "7f3c" name) :: tr
              /\ Forall (fun ev =>
                           match ev with
                           | Orchestrator.StartDetection _ _ => False
                           | _ => True
                           end) tr)
       /\ (ocr (fst r), Some (Returns "Hb 13.2" : result string))
          = Orchestrator.extract_text_from_s3 Orchestrator.sample_config
              (Orchestrator.answering
                 [Returns (Orchestrator.page [Orchestrator.line "Hb 13.2"]
                             None)])
              (Uploader.object_key "7f3c" name)
       /\ summarized (fst r) = ["Hb 13.2"]
       /\ (fun t => Returns ("Summary: " ++ t)) "Hb 13.2"
          = Returns "Summary: Hb 13.2".
Proof.
  split; [reflexivity|].
  refine (@success_chain
            {| Uploader.s3_initialized := true;
               Uploader.S3_BUCKET := Some "reports-bucket" |}
            Orchestrator.sample_config "7f3c" Uploader.Stored
            (Orchestrator.answering
               [Returns (Orchestrator.page [Orchestrator.line "Hb 13.2"]
                           None)])
            (fun t => Returns ("Summary: " ++ t))
            (Some "scan.pdf") (Returns "%PDF") "Hb 13.2" "Summary: Hb 13.2"
            _).
  reflexivity.
Defined.



End EndpointFacts.

(** * Properties of the summarizer *)

Module SummarizerFacts.

Import Summarizer.
Open Scope string_scope.




End SummarizerFacts.
